(** * smart-unicom/cache: the unified cache contract, its key builder,
      encoding layer, backend adapters, providers and manager.

    A shallow embedding of the Go package [cache].  Go strings and byte
    slices are byte sequences, modelled as [string]; [time.Duration] is an
    integer number of nanoseconds, modelled as [Z]; a Go function that
    returns [error] returns [ret]; one that returns [(x, error)] returns
    [outcome]; a run-time panic is an explicit result.  The backend clients
    (ristretto, go-redis) are external engines: they are modelled by small
    state machines over finite maps, and the adapters thread that state.
    What the engines decide on their own (which items the in-process
    engine admits, how much time has passed) is a parameter of the state;
    what the client library does to an argument before the server sees it
    (the rounding of an expiration) is written out. *)

From Stdlib Require Import ZArith String List Bool Lia.
From stdpp Require Import base option list gmap strings fin_maps.
Import ListNotations.

Local Open Scope string_scope.
Local Open Scope Z_scope.
Local Open Scope list_scope.

(* ===================================================================== *)
(** ** Errors and results *)
(* ===================================================================== *)

(** Go byte slices. *)
Abbreviation bytes := string.

(** The error values of the package.  An [fmt.Errorf] call is kept as its
    call site (an ASCII tag for the message) and the error it formats; the
    key, value and type arguments of the message are not kept. *)
Inductive error : Type :=
| ErrNotAPointer                      (* encoding: ErrNotAPointer *)
| ErrPlaceholder                      (* cache.go: ErrPlaceholder *)
| CacheNotFound                       (* redis.Nil *)
| ErrEmptyKey                         (* BuildCacheKey: errors.New *)
| ErrSetWithTTL                       (* memory.go: errors.New("SetWithTTL ...") *)
| ErrForeign (tag : string)           (* an error made by a codec, a value's
                                         method or a backend client *)
| ErrNew (site : string)              (* errors.New / fmt.Errorf, no cause *)
| Errorf (site : string) (inner : error).

(** Result of a Go function returning [error]. *)
Inductive ret : Type :=
| Nil
| Error (e : error)
| Panics (why : string).

(** Result of a Go function returning [(A, error)]. *)
Inductive outcome (A : Type) : Type :=
| Ok (a : A)
| Err (e : error)
| Panic (why : string).
Arguments Ok {A} a.
Arguments Err {A} e.
Arguments Panic {A} why.

Definition is_panic (r : ret) : bool :=
  match r with Panics _ => true | _ => false end.

Definition is_error (r : ret) : bool :=
  match r with Error _ => true | _ => false end.

(* ===================================================================== *)
(** ** cache.go: process-wide defaults *)
(* ===================================================================== *)

Definition Nanosecond : Z := 1.
Definition Millisecond : Z := 1000000 * Nanosecond.
Definition Second : Z := 1000000000 * Nanosecond.
Definition Minute : Z := 60 * Second.
Definition Hour : Z := 60 * Minute.

Definition DefaultExpireTime : Z := Hour * 24.
Definition DefaultNotFoundExpireTime : Z := Minute * 10.

Definition NotFoundPlaceholder : string := "*".
Definition NotFoundPlaceholderBytes : bytes := NotFoundPlaceholder.

(* ===================================================================== *)
(** ** Encoding layer *)
(* ===================================================================== *)

(** [reflect.Kind], as far as [isPointer] distinguishes kinds. *)
Inductive Kind : Type :=
| KInvalid | KPtr | KInterface | KStruct | KString | KInt | KSlice | KMap.

(** A Go value passed as [interface{}]: its kind, the content it holds or
    points to, and the two optional capabilities of its method set,
    [encoding.BinaryMarshaler] and [encoding.BinaryUnmarshaler].  The
    methods act on the current content; [UnmarshalBinary] returns the
    content it leaves behind together with its error. *)
Record Value (T : Type) : Type := mkValue {
  v_kind : Kind;
  v_content : T;
  v_MarshalBinary : option (T -> bytes + error);
  v_UnmarshalBinary : option (T -> bytes -> T * option error)
}.
Arguments mkValue {T} _ _ _ _.
Arguments v_kind {T} _.
Arguments v_content {T} _.
Arguments v_MarshalBinary {T} _.
Arguments v_UnmarshalBinary {T} _.

Definition set_content {T : Type} (v : Value T) (t : T) : Value T :=
  mkValue (v_kind v) t (v_MarshalBinary v) (v_UnmarshalBinary v).

(** The [Encoding] interface.  [e_Unmarshal data v] returns the content of
    the target after the call and the error. *)
Record Encoding (T : Type) : Type := mkEncoding {
  e_Marshal : Value T -> bytes + error;
  e_Unmarshal : bytes -> Value T -> T * option error
}.
Arguments mkEncoding {T} _ _.
Arguments e_Marshal {T} _ _.
Arguments e_Unmarshal {T} _ _ _.

Definition isPointer {T : Type} (data : Value T) : bool :=
  match v_kind data with
  | KPtr | KInterface => true
  | _ => false
  end.

Definition of_sum {A : Type} (r : A + error) : outcome A :=
  match r with inl a => Ok a | inr e => Err e end.

Definition nil_call : string := "nil interface method call".

(** [Marshal]; a nil [Encoding] is [None]. *)
Definition Marshal {T : Type} (e : option (Encoding T)) (v : Value T)
  : outcome bytes :=
  if negb (isPointer v) then Err ErrNotAPointer
  else
    let bm := v_MarshalBinary v in
    match bm, e with
    | Some m, None => of_sum (m (v_content v))
    | _, None => Panic nil_call
    | _, Some enc =>
        match e_Marshal enc v with
        | inl data => Ok data
        | inr err =>
            match bm with
            | Some m => of_sum (m (v_content v))
            | None => Err err
            end
        end
    end.

Definition of_opt_error (o : option error) : ret :=
  match o with None => Nil | Some e => Error e end.

(** [Unmarshal]: the result and the content of the target afterwards. *)
Definition Unmarshal {T : Type} (e : option (Encoding T)) (data : bytes)
  (v : Value T) : ret * T :=
  if negb (isPointer v) then (Error ErrNotAPointer, v_content v)
  else
    let bm := v_UnmarshalBinary v in
    match bm, e with
    | Some u, None =>
        let '(t, err) := u (v_content v) data in (of_opt_error err, t)
    | _, None => (Panics nil_call, v_content v)
    | _, Some enc =>
        match e_Unmarshal enc data v with
        | (t, None) => (Nil, t)
        | (t, Some err) =>
            match bm with
            | Some u => let '(t', err') := u t data in (of_opt_error err', t')
            | None => (Error err, t)
            end
        end
    end.

(* ===================================================================== *)
(** ** Key builder *)
(* ===================================================================== *)

(** [strings.Join] *)
Fixpoint Join (elems : list string) (sep : string) : string :=
  match elems with
  | [] => ""
  | [x] => x
  | x :: rest => String.append x (String.append sep (Join rest sep))
  end.

Definition BuildCacheKey (keyPrefix key : string) : outcome string :=
  if String.eqb key "" then Err ErrEmptyKey
  else
    let cacheKey := key in
    let cacheKey :=
      if negb (String.eqb keyPrefix "") then Join [keyPrefix; key] ":"
      else cacheKey in
    Ok cacheKey.

(* ===================================================================== *)
(** ** The in-process engine (ristretto), as the adapter consumes it *)
(* ===================================================================== *)

(** What the engine stores: the adapter only ever stores byte slices, but
    the engine holds [interface{}] and [memoryCache.Get] checks the type. *)
Inductive item : Type :=
| ItemBytes (b : bytes)
| ItemOther.

(** An entry of the engine's write buffer. *)
Inductive bufItem : Type :=
| BufSet (key : string) (value : item) (ttl : Z)
| BufDel (key : string).

(** The admission policy of the engine (TinyLFU over the cost budget
    [MaxCost]), as the adapter meets it.  [p st key] is its verdict on a new
    item for [key] when the engine holds [st]: [None], the item is dropped;
    [Some victims], the item is stored after the entries [victims] have been
    evicted.  The adapter passes cost 0 with every item, so the verdict
    depends on the engine alone: on its capacity, on what it holds and on
    the access frequencies it has counted. *)
Definition Policy : Type := gmap string (item * Z) → string → option (list string).

(** The engine buffers writes of new keys and applies them later, from a
    background worker; [Wait] blocks until the buffer has been applied.
    The model takes the schedule in which the worker has applied nothing
    when the next call arrives, the one [Wait] is there for; a write to a
    key that is already stored is applied at once.  [store] is what [Get] reads,
    [setBuf] the writes accepted but not yet applied (oldest first),
    [setBufRoom] how many more the buffer takes before [SetWithTTL] drops a
    write and returns false, and [policy] decides on each new item when the
    worker applies it.  An entry is a value and its time to live
    (0: no expiration); no time passes between two calls unless
    [ristretto_elapse] says so. *)
Record ristretto : Type := mkRistretto {
  store : gmap string (item * Z);
  setBuf : list bufItem;
  setBufRoom : nat;
  policy : Policy
}.

(** The worker applies one buffered write.  A new item for a key that is
    stored by now is rejected (the engine only updates its cost); otherwise
    the policy decides. *)
Definition applyBuf (p : Policy) (st : gmap string (item * Z)) (i : bufItem)
  : gmap string (item * Z) :=
  match i with
  | BufSet k v ttl =>
      match st !! k with
      | Some _ => st
      | None =>
          match p st k with
          | Some victims => <[k := (v, ttl)]> (fold_right delete st victims)
          | None => st
          end
      end
  | BufDel k => delete k st
  end.

Definition ristretto_SetWithTTL (c : ristretto) (key : string) (value : item)
  (cost : Z) (ttl : Z) : bool * ristretto :=
  if ttl <? 0 then (false, c)
  else
    match store c !! key with
    | Some _ =>
        (true, mkRistretto (<[key := (value, ttl)]> (store c)) (setBuf c)
                 (setBufRoom c) (policy c))
    | None =>
        match setBufRoom c with
        | O => (false, c)
        | S room =>
            (true, mkRistretto (store c) (setBuf c ++ [BufSet key value ttl])
                     room (policy c))
        end
    end.

Definition ristretto_Wait (c : ristretto) : ristretto :=
  mkRistretto (fold_left (applyBuf (policy c)) (setBuf c) (store c)) []
    (setBufRoom c + length (setBuf c)) (policy c).

Definition ristretto_Get (c : ristretto) (key : string) : option item :=
  fst <$> store c !! key.

Definition ristretto_Del (c : ristretto) (key : string) : ristretto :=
  mkRistretto (delete key (store c)) (setBuf c ++ [BufDel key])
    (setBufRoom c) (policy c).

(** The policy of an engine with room to spare: every new item is stored
    and nothing is evicted. *)
Definition roomy : Policy := λ _ _, Some [].

(** A fresh engine, as [InitMemory] builds it with the default options:
    its capacity is far from reached by the few items of the examples. *)
Definition ristretto_new (room : nat) : ristretto :=
  mkRistretto ∅ [] room roomy.

(** What is left of an entry once [d] nanoseconds have passed: an entry
    without a time to live stays, one with a time to live keeps the rest of
    it and is gone when none is left. *)
Definition age (d : Z) (e : item * Z) : option (item * Z) :=
  if e.2 =? 0 then Some e
  else if d <? e.2 then Some (e.1, e.2 - d)
  else None.

(** The engine once [d] nanoseconds have passed without a call.  Only the
    stored entries age: the statements let time pass after [Set] has
    waited, when nothing is queued. *)
Definition ristretto_elapse (d : Z) (c : ristretto) : ristretto :=
  mkRistretto (omap (age d) (store c)) (setBuf c) (setBufRoom c) (policy c).

(* ===================================================================== *)
(** ** The remote store (go-redis client and server), as consumed *)
(* ===================================================================== *)

(** The database maps a key to its value and time to live in nanoseconds
    (0: none).
    [down = Some e] is a transport failure: every command returns [e] and
    changes nothing.  The single-node and the cluster client are consumed
    through the same commands. *)
Record redisClient : Type := mkRedis {
  rdb : gmap string (bytes * Z);
  down : option error
}.

(** [redis.KeepTTL] *)
Definition KeepTTL : Z := -1.

(** The client formats a duration for the server in whole milliseconds or
    whole seconds, with Go's integer division, which truncates toward
    zero; a positive duration below one unit is sent as 1. *)
Definition usePrecise (dur : Z) : bool :=
  (dur <? Second) || negb (Z.rem dur Second =? 0).

Definition formatMs (dur : Z) : Z :=
  if (0 <? dur) && (dur <? Millisecond) then 1 else Z.quot dur Millisecond.

Definition formatSec (dur : Z) : Z :=
  if (0 <? dur) && (dur <? Second) then 1 else Z.quot dur Second.

(** The time to live that [SET] leaves on the key, in nanoseconds.  A
    positive expiration is sent as PX (milliseconds) when it is below a
    second or not a whole number of seconds, as EX (seconds) otherwise;
    [KeepTTL] is sent as KEEPTTL and keeps what the key had ([old]); any
    other expiration sends no option and the key gets no time to live. *)
Definition set_ttl (expiration : Z) (old : option (bytes * Z)) : Z :=
  if 0 <? expiration then
    if usePrecise expiration then formatMs expiration * Millisecond
    else formatSec expiration * Second
  else if expiration =? KeepTTL then
    match old with Some (_, ttl) => ttl | None => 0 end
  else 0.
Arguments set_ttl : simpl never.

Definition client_Set (c : redisClient) (key : string) (value : bytes)
  (expiration : Z) : ret * redisClient :=
  match down c with
  | Some e => (Error e, c)
  | None =>
      (Nil,
       mkRedis (<[key := (value, set_ttl expiration (rdb c !! key))]> (rdb c))
         None)
  end.

Definition client_Get (c : redisClient) (key : string) : outcome bytes :=
  match down c with
  | Some e => Err e
  | None =>
      match rdb c !! key with
      | Some (v, _) => Ok v
      | None => Err CacheNotFound
      end
  end.

Definition client_MGet (c : redisClient) (keys : list string)
  : outcome (list (option bytes)) :=
  match down c with
  | Some e => Err e
  | None => Ok (map (fun k => fst <$> rdb c !! k) keys)
  end.

Definition client_Del (c : redisClient) (keys : list string)
  : ret * redisClient :=
  match down c with
  | Some e => (Error e, c)
  | None => (Nil, mkRedis (fold_left (fun db k => delete k db) keys (rdb c)) None)
  end.

(** Commands queued on a pipeline, with the arguments the adapter passes:
    [pipeline.MSet(paris)] and [pipeline.Expire(key, expiration)]. *)
Inductive Cmder : Type :=
| CmdMSet (args : list bytes)          (* key, value, key, value, ... *)
| CmdExpire (key : string) (expiration : Z).

Fixpoint mset_args (db : gmap string (bytes * Z)) (args : list bytes)
  : option (gmap string (bytes * Z)) :=
  match args with
  | [] => Some db
  | k :: v :: rest => mset_args (<[k := (v, 0)]> db) rest
  | [_] => None
  end.

Definition wrong_arity : error := ErrForeign "ERR wrong number of arguments".

(** The server's reply to one command: MSET wants a non-empty list of
    pairs and clears the time to live; EXPIRE is sent with the duration in
    whole seconds ([formatSec]), and a timeout that is not positive deletes
    the key. *)
Definition server_cmd (db : gmap string (bytes * Z)) (cmd : Cmder)
  : ret * gmap string (bytes * Z) :=
  match cmd with
  | CmdMSet [] => (Error wrong_arity, db)
  | CmdMSet args =>
      match mset_args db args with
      | Some db' => (Nil, db')
      | None => (Error wrong_arity, db)
      end
  | CmdExpire k exp =>
      let seconds := formatSec exp in
      match db !! k with
      | None => (Nil, db)
      | Some (v, _) =>
          if seconds <=? 0 then (Nil, delete k db)
          else (Nil, <[k := (v, seconds * Second)]> db)
      end
  end.

(** [first_error r1 r2]: the pipeline reports the first failed command. *)
Definition first_error (r1 r2 : ret) : ret :=
  match r1 with Nil => r2 | _ => r1 end.

Fixpoint server_cmds (db : gmap string (bytes * Z)) (cmds : list Cmder)
  : ret * gmap string (bytes * Z) :=
  match cmds with
  | [] => (Nil, db)
  | cmd :: rest =>
      let '(r, db1) := server_cmd db cmd in
      let '(r', db2) := server_cmds db1 rest in
      (first_error r r', db2)
  end.

(** [pipeline.Exec]: every queued command is sent; a failed one does not
    stop the later ones. *)
Definition pipeline_Exec (c : redisClient) (cmds : list Cmder)
  : ret * redisClient :=
  match down c with
  | Some e => (Error e, c)
  | None =>
      let '(r, db) := server_cmds (rdb c) cmds in (r, mkRedis db None)
  end.

(* ===================================================================== *)
(** ** The cache objects *)
(* ===================================================================== *)

(** [memoryCache], [redisCache] and [redisClusterCache] have the same
    fields next to their client handle; the client is a pointer to an
    engine shared with the provider, so its state is threaded through the
    methods instead of being stored in the record. *)
Record cacheObj (T : Type) : Type := mkCache {
  c_KeyPrefix : string;
  c_encoding : option (Encoding T);
  c_DefaultExpireTime : Z;
  c_newObject : Value T                (* what [newObject()] returns *)
}.
Arguments mkCache {T} _ _ _ _.
Arguments c_KeyPrefix {T} _.
Arguments c_encoding {T} _.
Arguments c_DefaultExpireTime {T} _.
Arguments c_newObject {T} _.

(** [len(buf) == 0 || bytes.Equal(buf, NotFoundPlaceholderBytes)] *)
Definition is_placeholder (dataBytes : bytes) : bool :=
  (String.length dataBytes =? 0)%nat
  || String.eqb dataBytes NotFoundPlaceholderBytes.

(** [if len(buf) == 0 { buf = NotFoundPlaceholderBytes }] *)
Definition substitute (buf : bytes) : bytes :=
  if (String.length buf =? 0)%nat then NotFoundPlaceholderBytes else buf.

(* --------------------------------------------------------------------- *)
(** *** memory.go: memoryCache *)
(* --------------------------------------------------------------------- *)

Definition memoryCache_Set {T : Type} (m : cacheObj T) (cli : ristretto)
  (key : string) (val : Value T) (expiration : Z) : ret * ristretto :=
  match Marshal (c_encoding m) val with
  | Panic w => (Panics w, cli)
  | Err err => (Error (Errorf "memory.Set: encode" err), cli)
  | Ok buf =>
      let buf := substitute buf in
      match BuildCacheKey (c_KeyPrefix m) key with
      | Panic w => (Panics w, cli)
      | Err err => (Error (Errorf "memory.Set: build key" err), cli)
      | Ok cacheKey =>
          let '(ok, cli) :=
            ristretto_SetWithTTL cli cacheKey (ItemBytes buf) 0 expiration in
          if negb ok then (Error ErrSetWithTTL, cli)
          else (Nil, ristretto_Wait cli)
      end
  end.

(** [Get] returns its error and the content of the target [val] after the
    call. *)
Definition memoryCache_Get {T : Type} (m : cacheObj T) (cli : ristretto)
  (key : string) (val : Value T) : ret * T :=
  match BuildCacheKey (c_KeyPrefix m) key with
  | Panic w => (Panics w, v_content val)
  | Err err => (Error (Errorf "memory.Get: build key" err), v_content val)
  | Ok cacheKey =>
      match ristretto_Get cli cacheKey with
      | None => (Error CacheNotFound, v_content val)
      | Some ItemOther => (Error (ErrNew "memory.Get: data type"), v_content val)
      | Some (ItemBytes dataBytes) =>
          if is_placeholder dataBytes then (Error ErrPlaceholder, v_content val)
          else
            match Unmarshal (c_encoding m) dataBytes val with
            | (Nil, t) => (Nil, t)
            | (Error err, t) => (Error (Errorf "memory.Get: decode" err), t)
            | (Panics w, t) => (Panics w, t)
            end
      end
  end.

Definition memoryCache_Del {T : Type} (m : cacheObj T) (cli : ristretto)
  (keys : list string) : ret * ristretto :=
  match keys with
  | [] => (Nil, cli)
  | key :: _ =>
      match BuildCacheKey (c_KeyPrefix m) key with
      | Panic w => (Panics w, cli)
      | Err err => (Error (Errorf "memory.Del: build key" err), cli)
      | Ok cacheKey => (Nil, ristretto_Del cli cacheKey)
      end
  end.

(** [valueMap] is the Go map as the [range] loop visits it: its entries in
    an order that the language leaves open. *)
Fixpoint memoryCache_MultiSet {T : Type} (m : cacheObj T) (cli : ristretto)
  (valueMap : list (string * Value T)) (expiration : Z) : ret * ristretto :=
  match valueMap with
  | [] => (Nil, cli)
  | (key, value) :: rest =>
      match memoryCache_Set m cli key value expiration with
      | (Nil, cli') => memoryCache_MultiSet m cli' rest expiration
      | (err, cli') => (err, cli')
      end
  end.

(** [value] is the caller's map, entered by reflection. *)
Fixpoint memoryCache_MultiGet {T : Type} (m : cacheObj T) (cli : ristretto)
  (keys : list string) (value : gmap string (Value T))
  : ret * gmap string (Value T) :=
  match keys with
  | [] => (Nil, value)
  | key :: rest =>
      let object := c_newObject m in
      match memoryCache_Get m cli key object with
      | (Panics w, _) => (Panics w, value)
      | (Error _, _) => memoryCache_MultiGet m cli rest value
      | (Nil, t) =>
          memoryCache_MultiGet m cli rest (<[key := set_content object t]> value)
      end
  end.

Definition memoryCache_SetCacheWithNotFound {T : Type} (m : cacheObj T)
  (cli : ristretto) (key : string) : ret * ristretto :=
  match BuildCacheKey (c_KeyPrefix m) key with
  | Panic w => (Panics w, cli)
  | Err err => (Error (Errorf "memory.SetCacheWithNotFound: build key" err), cli)
  | Ok cacheKey =>
      let '(ok, cli) :=
        ristretto_SetWithTTL cli cacheKey (ItemBytes NotFoundPlaceholder) 0
          DefaultNotFoundExpireTime in
      if negb ok then (Error ErrSetWithTTL, cli)
      else (Nil, cli)
  end.

(* --------------------------------------------------------------------- *)
(** *** redisCache *)
(* --------------------------------------------------------------------- *)

Definition redisCache_Set {T : Type} (c : cacheObj T) (cli : redisClient)
  (key : string) (val : Value T) (expiration : Z) : ret * redisClient :=
  match Marshal (c_encoding c) val with
  | Panic w => (Panics w, cli)
  | Err err => (Error (Errorf "redis.Set: encode" err), cli)
  | Ok buf =>
      match BuildCacheKey (c_KeyPrefix c) key with
      | Panic w => (Panics w, cli)
      | Err err => (Error (Errorf "redis.Set: build key" err), cli)
      | Ok cacheKey =>
          let buf := substitute buf in
          match client_Set cli cacheKey buf expiration with
          | (Nil, cli') => (Nil, cli')
          | (Error err, cli') => (Error (Errorf "redis.Set: client" err), cli')
          | (Panics w, cli') => (Panics w, cli')
          end
      end
  end.

Definition redisCache_Get {T : Type} (c : cacheObj T) (cli : redisClient)
  (key : string) (val : Value T) : ret * T :=
  match BuildCacheKey (c_KeyPrefix c) key with
  | Panic w => (Panics w, v_content val)
  | Err err => (Error (Errorf "redis.Get: build key" err), v_content val)
  | Ok cacheKey =>
      match client_Get cli cacheKey with
      | Panic w => (Panics w, v_content val)
      | Err err => (Error err, v_content val)
      | Ok dataBytes =>
          if is_placeholder dataBytes then (Error ErrPlaceholder, v_content val)
          else
            match Unmarshal (c_encoding c) dataBytes val with
            | (Nil, t) => (Nil, t)
            | (Error err, t) => (Error (Errorf "redis.Get: decode" err), t)
            | (Panics w, t) => (Panics w, t)
            end
      end
  end.

(** The first loop of [MultiSet]: the flat key, value, key, value slice
    [paris], or the panic of a [Marshal] call. *)
Fixpoint MultiSet_pairs {T : Type} (c : cacheObj T)
  (valueMap : list (string * Value T)) (paris : list bytes)
  : outcome (list bytes) :=
  match valueMap with
  | [] => Ok paris
  | (key, value) :: rest =>
      match Marshal (c_encoding c) value with
      | Panic w => Panic w
      | Err _ => MultiSet_pairs c rest paris
      | Ok buf =>
          match BuildCacheKey (c_KeyPrefix c) key with
          | Panic w => Panic w
          | Err _ => MultiSet_pairs c rest paris
          | Ok cacheKey => MultiSet_pairs c rest ((paris ++ [cacheKey]) ++ [buf])
          end
      end
  end.

(** [for i := 0; i < len(paris); i = i + 2]: one EXPIRE per even index. *)
Fixpoint MultiSet_expires (paris : list bytes) (expiration : Z)
  : list Cmder :=
  match paris with
  | [] => []
  | [k] => [CmdExpire k expiration]
  | k :: _ :: rest => CmdExpire k expiration :: MultiSet_expires rest expiration
  end.

(** [pipeline.MSet(...).Err()] is read before [Exec], when the command is
    only queued: it is nil, and the first error check never fires. *)
Definition redisCache_MultiSet {T : Type} (c : cacheObj T) (cli : redisClient)
  (valueMap : list (string * Value T)) (expiration : Z) : ret * redisClient :=
  if (length valueMap =? 0)%nat then (Nil, cli)
  else
    match MultiSet_pairs c valueMap [] with
    | Panic w => (Panics w, cli)
    | Err err => (Error err, cli)
    | Ok paris =>
        let pipeline := CmdMSet paris :: MultiSet_expires paris expiration in
        match pipeline_Exec cli pipeline with
        | (Nil, cli') => (Nil, cli')
        | (Error err, cli') => (Error (Errorf "redis.MultiSet: exec" err), cli')
        | (Panics w, cli') => (Panics w, cli')
        end
    end.

(** The first loop of [MultiGet]: every key must build. *)
Fixpoint MultiGet_keys (keyPrefix : string) (keys : list string)
  : outcome (list string) :=
  match keys with
  | [] => Ok []
  | key :: rest =>
      match BuildCacheKey keyPrefix key with
      | Panic w => Panic w
      | Err err => Err (Errorf "redis.MultiGet: build key" err)
      | Ok cacheKey =>
          match MultiGet_keys keyPrefix rest with
          | Ok cacheKeys => Ok (cacheKey :: cacheKeys)
          | other => other
          end
      end
  end.

(** The second loop of [MultiGet], over the reply slots paired with the
    physical keys of the same index. *)
Fixpoint MultiGet_inject {T : Type} (c : cacheObj T)
  (slots : list (string * option bytes)) (valueMap : gmap string (Value T))
  : ret * gmap string (Value T) :=
  match slots with
  | [] => (Nil, valueMap)
  | (cacheKey, v) :: rest =>
      match v with
      | None => MultiGet_inject c rest valueMap
      | Some dataBytes =>
          if is_placeholder dataBytes then MultiGet_inject c rest valueMap
          else
            let object := c_newObject c in
            match Unmarshal (c_encoding c) dataBytes object with
            | (Panics w, _) => (Panics w, valueMap)
            | (Error _, _) => MultiGet_inject c rest valueMap
            | (Nil, t) =>
                MultiGet_inject c rest
                  (<[cacheKey := set_content object t]> valueMap)
            end
      end
  end.

Definition redisCache_MultiGet {T : Type} (c : cacheObj T) (cli : redisClient)
  (keys : list string) (value : gmap string (Value T))
  : ret * gmap string (Value T) :=
  if (length keys =? 0)%nat then (Nil, value)
  else
    match MultiGet_keys (c_KeyPrefix c) keys with
    | Panic w => (Panics w, value)
    | Err err => (Error err, value)
    | Ok cacheKeys =>
        match client_MGet cli cacheKeys with
        | Panic w => (Panics w, value)
        | Err err => (Error (Errorf "redis.MultiGet: client" err), value)
        | Ok values => MultiGet_inject c (combine cacheKeys values) value
        end
    end.

(** The loop of [Del]: [cacheKeys] starts as [make([]string, len(keys))]
    and slot [index] is assigned when the key builds. *)
Fixpoint Del_keys (keyPrefix : string) (keys : list string) (index : nat)
  (cacheKeys : list string) : list string :=
  match keys with
  | [] => cacheKeys
  | key :: rest =>
      match BuildCacheKey keyPrefix key with
      | Ok cacheKey =>
          Del_keys keyPrefix rest (S index) (<[index := cacheKey]> cacheKeys)
      | _ => Del_keys keyPrefix rest (S index) cacheKeys
      end
  end.

(** The argument list of the one DEL command that [Del] sends. *)
Definition Del_args (keyPrefix : string) (keys : list string) : list string :=
  Del_keys keyPrefix keys 0 (replicate (length keys) "").

Definition redisCache_Del {T : Type} (c : cacheObj T) (cli : redisClient)
  (keys : list string) : ret * redisClient :=
  if (length keys =? 0)%nat then (Nil, cli)
  else
    let cacheKeys := Del_args (c_KeyPrefix c) keys in
    match client_Del cli cacheKeys with
    | (Nil, cli') => (Nil, cli')
    | (Error err, cli') => (Error (Errorf "redis.Del: client" err), cli')
    | (Panics w, cli') => (Panics w, cli')
    end.

Definition redisCache_SetCacheWithNotFound {T : Type} (c : cacheObj T)
  (cli : redisClient) (key : string) : ret * redisClient :=
  match BuildCacheKey (c_KeyPrefix c) key with
  | Panic w => (Panics w, cli)
  | Err err => (Error (Errorf "redis.SetCacheWithNotFound: build key" err), cli)
  | Ok cacheKey =>
      client_Set cli cacheKey NotFoundPlaceholder DefaultNotFoundExpireTime
  end.

(* --------------------------------------------------------------------- *)
(** *** redisClusterCache *)
(* --------------------------------------------------------------------- *)

(** The methods of [redisClusterCache] repeat those of [redisCache]
    statement by statement over a [redis.ClusterClient]. *)
Definition redisClusterCache_Set {T : Type} := @redisCache_Set T.
Definition redisClusterCache_Get {T : Type} := @redisCache_Get T.
Definition redisClusterCache_MultiSet {T : Type} := @redisCache_MultiSet T.
Definition redisClusterCache_MultiGet {T : Type} := @redisCache_MultiGet T.
Definition redisClusterCache_Del {T : Type} := @redisCache_Del T.
Definition redisClusterCache_SetCacheWithNotFound {T : Type} :=
  @redisCache_SetCacheWithNotFound T.

(* ===================================================================== *)
(** ** provider.go: configuration, providers, manager *)
(* ===================================================================== *)

Definition CacheType := string.
Definition MemoryCache : CacheType := "memory".
Definition RedisCache : CacheType := "redis".
Definition RedisClusterCache : CacheType := "redis_cluster".

Module MemoryConfig.
Record t : Type := mk {
  NumCounters : Z;
  MaxCost : Z;
  BufferItems : Z
}.
End MemoryConfig.

Module RedisConfig.
Record t : Type := mk {
  Addr : string;
  Password : string;
  DB : Z;
  PoolSize : Z;
  MinIdleConns : Z;
  MaxIdleConns : Z;
  ConnMaxLifetime : Z;
  DialTimeout : Z;
  ReadTimeout : Z;
  WriteTimeout : Z
}.
End RedisConfig.

Module RedisClusterConfig.
Record t : Type := mk {
  Addrs : list string;
  Password : string;
  PoolSize : Z;
  MinIdleConns : Z;
  MaxIdleConns : Z;
  ConnMaxLifetime : Z;
  DialTimeout : Z;
  ReadTimeout : Z;
  WriteTimeout : Z
}.
End RedisClusterConfig.

Record Config : Type := mkConfig {
  Type_ : CacheType;
  KeyPrefix : string;
  cfg_DefaultExpireTime : Z;
  Memory : option MemoryConfig.t;
  Redis : option RedisConfig.t;
  RedisCluster : option RedisClusterConfig.t
}.

(** The options a backend client was built from. *)
Inductive clientOptions : Type :=
| ristrettoConfig (o : MemoryConfig.t)
| redisOptions (o : RedisConfig.t)
| redisClusterOptions (o : RedisClusterConfig.t).

(** A backend client as a provider owns it: its options, whether [Close]
    has been called on it, and the error its [Close] reports, if any. *)
Record conn : Type := mkConn {
  conn_options : clientOptions;
  conn_closed : bool;
  conn_fault : option error
}.

Definition ErrClosed : error := ErrForeign "redis: client is closed".

(** [Close] of [redis.Client]: the connection pool refuses to be closed
    twice. *)
Definition redis_Close (c : conn) : ret * conn :=
  if conn_closed c then (Error ErrClosed, c)
  else (of_opt_error (conn_fault c), mkConn (conn_options c) true (conn_fault c)).

(** [Close] of [redis.ClusterClient]: it closes the clients of its nodes
    and reports the first error; on a cluster client that is closed
    already it does nothing and returns nil. *)
Definition cluster_Close (c : conn) : ret * conn :=
  if conn_closed c then (Nil, c)
  else (of_opt_error (conn_fault c), mkConn (conn_options c) true (conn_fault c)).

(** [Close] of [ristretto.Cache] returns nothing. *)
Definition ristretto_Close (c : conn) : conn :=
  mkConn (conn_options c) true (conn_fault c).

Inductive Provider (T : Type) : Type :=
| memoryProvider (cache : cacheObj T) (client : option conn)
| redisProvider (cache : cacheObj T) (client : option conn)
| redisClusterProvider (cache : cacheObj T) (client : option conn).
Arguments memoryProvider {T} _ _.
Arguments redisProvider {T} _ _.
Arguments redisClusterProvider {T} _ _.

Definition Provider_GetCache {T : Type} (p : Provider T) : cacheObj T :=
  match p with
  | memoryProvider cache _ | redisProvider cache _
  | redisClusterProvider cache _ => cache
  end.

Definition Provider_client {T : Type} (p : Provider T) : option conn :=
  match p with
  | memoryProvider _ client | redisProvider _ client
  | redisClusterProvider _ client => client
  end.

(** [Close] of the three providers: the error and the provider afterwards. *)
Definition Provider_Close {T : Type} (p : Provider T) : ret * Provider T :=
  match p with
  | memoryProvider cache client =>
      match client with
      | Some c => (Nil, memoryProvider cache (Some (ristretto_Close c)))
      | None => (Nil, p)
      end
  | redisProvider cache client =>
      match client with
      | Some c => let '(r, c') := redis_Close c in (r, redisProvider cache (Some c'))
      | None => (Nil, p)
      end
  | redisClusterProvider cache client =>
      match client with
      | Some c =>
          let '(r, c') := cluster_Close c in
          (r, redisClusterProvider cache (Some c'))
      | None => (Nil, p)
      end
  end.

Definition defaultMemoryConfig : MemoryConfig.t :=
  MemoryConfig.mk 10000000 (Z.shiftl 1 30) 64.

(** [InitMemory] with the three options of [newMemoryProvider]:
    [ristretto.NewCache] rejects a zero tunable and [InitMemory] panics.
    Any other tunables give an engine here; the library itself does not
    return one for tunables far out of range (a negative [NumCounters], or
    one near the largest integer), and the statements that promise an
    engine keep the tunables between 1 and the defaults. *)
Definition InitMemory (o : MemoryConfig.t) : outcome conn :=
  if (MemoryConfig.NumCounters o =? 0) || (MemoryConfig.MaxCost o =? 0)
     || (MemoryConfig.BufferItems o =? 0)
  then Panic "ristretto.NewCache"
  else Ok (mkConn (ristrettoConfig o) false None).

(** [redis.NewClient] and [redis.NewClusterClient] return a client and no
    error; nothing is dialled until the first command.  The library
    reserves the connection pool at once and panics on a pool size that is
    negative or beyond what it can allocate; the statements that promise a
    client keep the pool size between 0 and [maxPoolSize]. *)
Definition maxPoolSize : Z := 1000.

Definition redis_NewClient (o : RedisConfig.t) : conn :=
  mkConn (redisOptions o) false None.

Definition redis_NewClusterClient (o : RedisClusterConfig.t) : conn :=
  mkConn (redisClusterOptions o) false None.

Definition or_default (x d : Z) : Z := if x =? 0 then d else x.

Definition newMemoryProvider {T : Type} (config : Config)
  (encoding : option (Encoding T)) (newObject : Value T)
  : outcome (Provider T) :=
  let memory :=
    match Memory config with
    | None => defaultMemoryConfig
    | Some mc => mc
    end in
  match InitMemory memory with
  | Panic w => Panic w
  | Err e => Err e
  | Ok client =>
      let cache :=
        mkCache (KeyPrefix config) encoding (cfg_DefaultExpireTime config)
          newObject in
      Ok (memoryProvider cache (Some client))
  end.

Definition newRedisProvider {T : Type} (config : Config)
  (encoding : option (Encoding T)) (newObject : Value T)
  : outcome (Provider T) :=
  match Redis config with
  | None => Err (ErrNew "redis config is nil")
  | Some rc =>
      let redisConfig :=
        RedisConfig.mk (RedisConfig.Addr rc) (RedisConfig.Password rc)
          (RedisConfig.DB rc)
          (or_default (RedisConfig.PoolSize rc) 10)
          (or_default (RedisConfig.MinIdleConns rc) 2)
          (RedisConfig.MaxIdleConns rc)
          (or_default (RedisConfig.ConnMaxLifetime rc) Hour)
          (or_default (RedisConfig.DialTimeout rc) (5 * Second))
          (or_default (RedisConfig.ReadTimeout rc) (3 * Second))
          (or_default (RedisConfig.WriteTimeout rc) (3 * Second)) in
      let client := redis_NewClient redisConfig in
      let cache :=
        mkCache (KeyPrefix config) encoding (cfg_DefaultExpireTime config)
          newObject in
      Ok (redisProvider cache (Some client))
  end.

Definition newRedisClusterProvider {T : Type} (config : Config)
  (encoding : option (Encoding T)) (newObject : Value T)
  : outcome (Provider T) :=
  match RedisCluster config with
  | None => Err (ErrNew "redis cluster config is nil")
  | Some rc =>
      if (length (RedisClusterConfig.Addrs rc) =? 0)%nat
      then Err (ErrNew "redis cluster address list is empty")
      else
        let clusterConfig :=
          RedisClusterConfig.mk (RedisClusterConfig.Addrs rc)
            (RedisClusterConfig.Password rc)
            (or_default (RedisClusterConfig.PoolSize rc) 10)
            (or_default (RedisClusterConfig.MinIdleConns rc) 2)
            (RedisClusterConfig.MaxIdleConns rc)
            (or_default (RedisClusterConfig.ConnMaxLifetime rc) Hour)
            (or_default (RedisClusterConfig.DialTimeout rc) (5 * Second))
            (or_default (RedisClusterConfig.ReadTimeout rc) (3 * Second))
            (or_default (RedisClusterConfig.WriteTimeout rc) (3 * Second)) in
        let client := redis_NewClusterClient clusterConfig in
        let cache :=
          mkCache (KeyPrefix config) encoding (cfg_DefaultExpireTime config)
            newObject in
        Ok (redisClusterProvider cache (Some client))
  end.

(** [NewProvider]; a nil [Config] pointer is [None]. *)
Definition NewProvider {T : Type} (config : option Config)
  (encoding : option (Encoding T)) (newObject : Value T)
  : outcome (Provider T) :=
  match config with
  | None => Err (ErrNew "cache config is nil")
  | Some config =>
      if String.eqb (Type_ config) MemoryCache
      then newMemoryProvider config encoding newObject
      else if String.eqb (Type_ config) RedisCache
      then newRedisProvider config encoding newObject
      else if String.eqb (Type_ config) RedisClusterCache
      then newRedisClusterProvider config encoding newObject
      else Err (ErrNew "unsupported cache type")
  end.

Definition is_provider {A : Type} (r : outcome A) : bool :=
  match r with Ok _ => true | _ => false end.

(** [Manager]: the registry is a Go map from names to providers. *)
Record Manager (T : Type) : Type := mkManager {
  providers : gmap string (Provider T)
}.
Arguments mkManager {T} _.
Arguments providers {T} _.

Definition NewManager {T : Type} : Manager T := mkManager ∅.

Definition Manager_AddProvider {T : Type} (m : Manager T) (name : string)
  (provider : Provider T) : Manager T :=
  mkManager (<[name := provider]> (providers m)).

Definition Manager_GetProvider {T : Type} (m : Manager T) (name : string)
  : option (Provider T) :=
  providers m !! name.

(** A [Provider] interface value is a pointer: what [AddProvider] stores
    under a name is the address of a provider object, and two names can
    hold the same address.  [providers m !! name] above is the state of the
    object that [name] points to, which is all a lookup needs; [Close]
    changes the object, so for [CloseAll] the pointers are explicit.
    [pointers] is the Go map and [objects] the provider objects by
    address; an address without an object is the nil provider.  A provider
    object owns its client: every constructor builds a client of its own,
    and the fields of a provider are never assigned again. *)
Abbreviation addr := nat.

Record Registry (T : Type) : Type := mkRegistry {
  pointers : gmap string addr;
  objects : gmap addr (Provider T)
}.
Arguments mkRegistry {T} _ _.
Arguments pointers {T} _.
Arguments objects {T} _.

(** The registry as lookups see it. *)
Definition Registry_view {T : Type} (g : Registry T) : Manager T :=
  mkManager (omap (λ a, objects g !! a) (pointers g)).

(** The loop of [CloseAll] over the entries in the order the [range]
    visits them: [Close] is called on the object each entry points to, in
    the state earlier calls have left it in. *)
Fixpoint CloseAll_range {T : Type} (entries : list (string * addr))
  (lastErr : ret) (objs : gmap addr (Provider T))
  : ret * gmap addr (Provider T) :=
  match entries with
  | [] => (lastErr, objs)
  | (name, provider) :: rest =>
      match objs !! provider with
      | None => (Panics nil_call, objs)
      | Some obj =>
          match Provider_Close obj with
          | (Nil, obj') => CloseAll_range rest lastErr (<[provider := obj']> objs)
          | (Error err, obj') =>
              CloseAll_range rest (Error (Errorf name err))
                (<[provider := obj']> objs)
          | (Panics w, obj') => (Panics w, <[provider := obj']> objs)
          end
      end
  end.

(** [CloseAll g order]: [order] is the iteration order of the map, any
    permutation of its entries. *)
Definition Manager_CloseAll {T : Type} (g : Registry T)
  (order : list (string * addr)) : ret * Registry T :=
  let '(r, objs) := CloseAll_range order Nil (objects g) in
  (r, mkRegistry (pointers g) objs).

Definition range_of {T : Type} (m : Manager T)
  (order : list (string * Provider T)) : Prop :=
  order ≡ₚ map_to_list (providers m).

(* ===================================================================== *)
(** ** provider.go: default configurations, the rest of the manager *)
(* ===================================================================== *)

Definition DefaultConfig : Config :=
  mkConfig MemoryCache "" DefaultExpireTime (Some defaultMemoryConfig) None None.

Definition DefaultRedisConfig (addr : string) : Config :=
  mkConfig RedisCache "" DefaultExpireTime None
    (Some (RedisConfig.mk addr "" 0 10 2 0 Hour (5 * Second) (3 * Second)
             (3 * Second)))
    None.

Definition DefaultRedisClusterConfig (addrs : list string) : Config :=
  mkConfig RedisClusterCache "" DefaultExpireTime None None
    (Some (RedisClusterConfig.mk addrs "" 10 2 0 Hour (5 * Second) (3 * Second)
             (3 * Second))).

Definition Manager_GetCache {T : Type} (m : Manager T) (name : string)
  : option (cacheObj T) :=
  match providers m !! name with
  | None => None
  | Some provider => Some (Provider_GetCache provider)
  end.


(** [ListProviders], over the entries in the order the [range] visits
    them. *)
Definition Manager_ListProviders {T : Type}
  (order : list (string * Provider T)) : list string :=
  fold_left (λ names np, names ++ [np.1]) order [].

(* ===================================================================== *)
(** ** memory.go: options and the global engine *)
(* ===================================================================== *)

Record options : Type := mkOptions {
  numCounters : Z;
  maxCost : Z;
  bufferItems : Z
}.

Definition defaultOptions : options := mkOptions 10000000 (Z.shiftl 1 30) 64.

Definition Option : Type := options → options.

Definition options_apply (o : options) (opts : list Option) : options :=
  fold_left (λ o opt, opt o) opts o.

Definition WithNumCounters (n : Z) : Option :=
  λ o, mkOptions n (maxCost o) (bufferItems o).

Definition WithMaxCost (c : Z) : Option :=
  λ o, mkOptions (numCounters o) c (bufferItems o).

Definition WithBufferItems (b : Z) : Option :=
  λ o, mkOptions (numCounters o) (maxCost o) b.

(** [InitMemory(opts...)]: the options are applied to the defaults, and the
    engine is built from the result as [InitMemory] above builds it. *)
Definition InitMemory_opts (opts : list Option) : outcome conn :=
  let o := options_apply defaultOptions opts in
  InitMemory (MemoryConfig.mk (numCounters o) (maxCost o) (bufferItems o)).

(** The package variables [memoryCli] and [once] ([once_done]: the
    [sync.Once] has fired). *)
Record globalMemory : Type := mkGlobal {
  memoryCli : option conn;
  once_done : bool
}.

Definition globalMemory_init : globalMemory := mkGlobal None false.

Definition InitGlobalMemory (opts : list Option) (g : globalMemory)
  : outcome globalMemory :=
  match InitMemory_opts opts with
  | Ok c => Ok (mkGlobal (Some c) (once_done g))
  | Err e => Err e
  | Panic w => Panic w
  end.

(** [GetGlobalMemoryCli]: the client returned (nil is [None]) and the
    package state afterwards. *)
Definition GetGlobalMemoryCli (g : globalMemory)
  : outcome (option conn * globalMemory) :=
  match memoryCli g with
  | Some c => Ok (Some c, g)
  | None =>
      if once_done g then Ok (None, g)
      else
        match InitMemory_opts [] with
        | Ok c => Ok (Some c, mkGlobal (Some c) true)
        | Err e => Err e
        | Panic w => Panic w
        end
  end.

Definition CloseGlobalMemory (g : globalMemory) : ret * globalMemory :=
  match memoryCli g with
  | Some c => (Nil, mkGlobal (Some (ristretto_Close c)) (once_done g))
  | None => (Nil, g)
  end.

(** The calls a program can make on the global engine. *)
Inductive globalCall : Type :=
| CallInit (opts : list Option)
| CallGet
| CallClose.

(** The package state after a call; a call that panics leaves it as it
    was. *)
Definition global_step (g : globalMemory) (c : globalCall) : globalMemory :=
  match c with
  | CallInit opts =>
      match InitGlobalMemory opts g with Ok g' => g' | _ => g end
  | CallGet =>
      match GetGlobalMemoryCli g with Ok (_, g') => g' | _ => g end
  | CallClose => (CloseGlobalMemory g).2
  end.

(* ===================================================================== *)
(** ** The codec registry *)
(* ===================================================================== *)

(** The [Codec] interface: an [Encoding] with a name. *)
Record Codec (T : Type) : Type := mkCodec {
  codec_encoding : Encoding T;
  codec_Name : string
}.
Arguments mkCodec {T} _ _.
Arguments codec_encoding {T} _.
Arguments codec_Name {T} _.

(** [RegisterCodec] on the package map [registeredCodecs]; a nil codec is
    [None].  [ToLower] stands for [strings.ToLower]. *)
Definition RegisterCodec {T : Type} (ToLower : string → string)
  (registeredCodecs : gmap string (Codec T)) (codec : option (Codec T))
  : outcome (gmap string (Codec T)) :=
  match codec with
  | None => Panic "cannot register a nil Codec"
  | Some codec =>
      if String.eqb (codec_Name codec) ""
      then Panic "cannot register Codec with empty string result for Name()"
      else
        let contentSubtype := ToLower (codec_Name codec) in
        Ok (<[contentSubtype := codec]> registeredCodecs)
  end.

Definition GetCodec {T : Type} (registeredCodecs : gmap string (Codec T))
  (contentSubtype : string) : option (Codec T) :=
  registeredCodecs !! contentSubtype.

(* ===================================================================== *)
(** ** Auxiliary notions used in the statements *)
(* ===================================================================== *)

(** The key a buffered write is about. *)
Definition bufKey (i : bufItem) : string :=
  match i with BufSet k _ _ | BufDel k => k end.

(** Engine invariant: a key with a pending write is not in the store.  It
    holds of a fresh engine and every engine call preserves it. *)
Definition buf_fresh (c : ristretto) : Prop :=
  Forall (λ i, store c !! bufKey i = None) (setBuf c).

(** What a slot of [cacheKeys] holds after the loop of [Del]: the physical
    key, or the zero value of [string] when the key did not build. *)
Definition Del_slot (keyPrefix key : string) : string :=
  match BuildCacheKey keyPrefix key with
  | Ok cacheKey => cacheKey
  | _ => ""
  end.

(** The entry that a negative-cache write leaves in a remote store, and
    in the in-process engine. *)
Definition placeholderEntry : bytes * Z :=
  (NotFoundPlaceholderBytes, DefaultNotFoundExpireTime).

Definition placeholderItem : item * Z :=
  (ItemBytes NotFoundPlaceholderBytes, DefaultNotFoundExpireTime).

(** The entries of a [MultiSet] that encode and whose key builds, as
    physical key and encoded bytes, in visiting order. *)
Fixpoint survivors {T : Type} (c : cacheObj T)
  (valueMap : list (string * Value T)) : list (string * bytes) :=
  match valueMap with
  | [] => []
  | (key, value) :: rest =>
      match Marshal (c_encoding c) value, BuildCacheKey (c_KeyPrefix c) key with
      | Ok buf, Ok cacheKey => (cacheKey, buf) :: survivors c rest
      | _, _ => survivors c rest
      end
  end.

(** The flat key, value, key, value argument list of a list of pairs. *)
Fixpoint flatten (l : list (string * bytes)) : list bytes :=
  match l with
  | [] => []
  | (k, b) :: rest => k :: b :: flatten rest
  end.

(** The database after MSET of the pairs, and after EXPIRE of their keys. *)
Definition mset_db (l : list (string * bytes)) (db : gmap string (bytes * Z))
  : gmap string (bytes * Z) :=
  fold_left (λ d kb, <[kb.1 := (kb.2, 0)]> d) l db.

Definition expire_db (expiration : Z) (l : list (string * bytes))
  (db : gmap string (bytes * Z)) : gmap string (bytes * Z) :=
  fold_left (λ d kb, alter (λ e, (e.1, formatSec expiration * Second)) kb.1 d)
    l db.

(** What [Close] returns on the object at address [a] of [objs] when the
    entries before it in the iteration point to the addresses [visited]:
    an object that an earlier entry points to has been closed once
    already. *)
Definition Close_result {T : Type} (objs : gmap addr (Provider T))
  (visited : list addr) (a : addr) : ret :=
  match objs !! a with
  | None => Panics nil_call
  | Some p =>
      if decide (a ∈ visited) then (Provider_Close (Provider_Close p).2).1
      else (Provider_Close p).1
  end.


(* ===================================================================== *)
(** ** Sample codec, values and engines used in the examples *)
(* ===================================================================== *)

(** A codec over string contents: it refuses the content ["poison"], writes
    any other content as it is, and reads every byte sequence but ["bad"]. *)
Definition sampleCodec : Encoding string :=
  mkEncoding
    (fun v =>
       if String.eqb (v_content v) "poison" then inr (ErrForeign "unsupported")
       else inl (v_content v))
    (fun data v =>
       if String.eqb data "bad" then (v_content v, Some (ErrForeign "syntax"))
       else (data, None)).

(** A pointer to a plain struct: no byte-serialization capability. *)
Definition ptr (t : string) : Value string := mkValue KPtr t None None.

(** A struct passed by value. *)
Definition byValue (t : string) : Value string := mkValue KStruct t None None.

(** A pointer whose type implements both binary capabilities. *)
Definition binPtr (t : string) : Value string :=
  mkValue KPtr t (Some (fun c => inl c)) (Some (fun _ data => (data, None))).

Definition sampleCache (prefix : string) : cacheObj string :=
  mkCache prefix (Some sampleCodec) DefaultExpireTime (ptr "").

Definition emptyRedis : redisClient := mkRedis ∅ None.

(** Two remote providers whose clients fail to close, and a registry
    that holds both. *)
Definition sampleRedisConfig (addr : string) : RedisConfig.t :=
  RedisConfig.mk addr "" 0 0 0 0 0 0 0 0.

Definition failingProvider (prefix why : string) : Provider string :=
  redisProvider (sampleCache prefix)
    (Some (mkConn (redisOptions (sampleRedisConfig "localhost:6379")) false
             (Some (ErrForeign why)))).

Definition sampleManager : Manager string :=
  Manager_AddProvider
    (Manager_AddProvider NewManager "b" (failingProvider "b" "broken pipe"))
    "a" (failingProvider "a" "i/o timeout").

Definition sampleOrder : list (string * Provider string) :=
  [("a", failingProvider "a" "i/o timeout");
   ("b", failingProvider "b" "broken pipe")].

(** The same two providers by pointer, and a third, sound one that is
    registered under two names. *)
Definition soundProvider (prefix : string) : Provider string :=
  redisProvider (sampleCache prefix)
    (Some (redis_NewClient (sampleRedisConfig "localhost:6379"))).

Definition sampleRegistry : Registry string :=
  mkRegistry
    (<["a" := 1%nat]> (<["b" := 2%nat]> ∅))
    (<[1%nat := failingProvider "a" "i/o timeout"]>
       (<[2%nat := failingProvider "b" "broken pipe"]> ∅)).

Definition sharedRegistry : Registry string :=
  mkRegistry
    (<["main" := 1%nat]> (<["alias" := 1%nat]> ∅))
    (<[1%nat := soundProvider "app"]> ∅).

(** A single-node configuration with no address, and a cluster
    configuration with no addresses. *)
Definition redisNoAddr : Config :=
  mkConfig RedisCache "app" DefaultExpireTime None
    (Some (sampleRedisConfig "")) None.

Definition clusterNoAddrs : Config :=
  mkConfig RedisClusterCache "app" DefaultExpireTime None None
    (Some (RedisClusterConfig.mk [] "" 0 0 0 0 0 0 0)).

(** A remote store that holds a value under the empty key (written by
    another client of the same server) and one under ["app:a"]. *)
Definition redisWithEmptyKey : redisClient :=
  mkRedis (<["" := ("other", 0)]> (<["app:a" := ("1", 0)]> ∅)) None.

(** Lower-casing of the ASCII letters, the instance of [ToLower] used in
    the examples. *)
Definition lower_ascii (a : Ascii.ascii) : Ascii.ascii :=
  let n := Ascii.nat_of_ascii a in
  if ((65 <=? n) && (n <=? 90))%nat then Ascii.ascii_of_nat (n + 32) else a.

Fixpoint asciiToLower (s : string) : string :=
  match s with
  | EmptyString => EmptyString
  | String a rest => String (lower_ascii a) (asciiToLower rest)
  end.

Definition sampleCodecNamed (name : string) : Codec string :=
  mkCodec sampleCodec name.

(** A remote store that cannot be reached. *)
Definition unreachableRedis : redisClient :=
  mkRedis ∅ (Some (ErrForeign "dial tcp: connection refused")).

(** An engine whose capacity is below the cost of any item: its policy
    drops every new item. *)
Definition tinyEngine : ristretto := mkRistretto ∅ [] 8 (λ _ _, None).

(* ===================================================================== *)
(** ** Key builder: properties *)
(* ===================================================================== *)

Lemma eqb_empty_false (s : string) : s ≠ "" → String.eqb s "" = false.
Proof. intros H. apply String.eqb_neq. exact H. Qed.

(** C5.  For non-empty [prefix] and [key], [BuildCacheKey prefix key] is
    [prefix ++ ":" ++ key]; for the empty prefix it is [key] itself, with
    no separator; for the empty key it fails with the empty-key error,
    whatever the prefix. *)
Theorem BuildCacheKey_spec (prefix key : string) :
  (prefix ≠ "" → key ≠ "" →
     BuildCacheKey prefix key
     = Ok (String.append prefix (String.append ":" key)))
  ∧ (key ≠ "" → BuildCacheKey "" key = Ok key)
  ∧ BuildCacheKey prefix "" = Err ErrEmptyKey.
Proof.
  unfold BuildCacheKey. repeat split.
  - intros Hp Hk. rewrite (eqb_empty_false key Hk), (eqb_empty_false prefix Hp).
    reflexivity.
  - intros Hk. rewrite (eqb_empty_false key Hk). reflexivity.
Qed.

Lemma BuildCacheKey_spec_witness :
  BuildCacheKey "app" "u:1" = Ok "app:u:1"
  ∧ BuildCacheKey "" "u:1" = Ok "u:1"
  ∧ BuildCacheKey "app" "" = Err ErrEmptyKey.
Proof.
  destruct (BuildCacheKey_spec "app" "u:1") as (H1 & H2 & H3).
  split; [| split].
  - apply H1; discriminate.
  - apply H2; discriminate.
  - exact (proj2 (proj2 (BuildCacheKey_spec "app" "u:1"))).
Defined.

(** A key builds exactly when it is not empty. *)
Lemma BuildCacheKey_Ok (prefix key : string) :
  key ≠ "" → ∃ cacheKey, BuildCacheKey prefix key = Ok cacheKey.
Proof.
  intros Hk. unfold BuildCacheKey. rewrite (eqb_empty_false key Hk). eauto.
Qed.

Lemma BuildCacheKey_no_panic (prefix key w : string) :
  BuildCacheKey prefix key ≠ Panic w.
Proof.
  unfold BuildCacheKey. destruct (String.eqb key ""); discriminate.
Qed.

(* ===================================================================== *)
(** ** Encoding layer: properties *)
(* ===================================================================== *)

Ltac solve_cases :=
  repeat match goal with
    | |- _ ↔ _ => split
    | |- _ → _ => intro
    | |- ¬ _ => intro
    | H : _ ∧ _ |- _ => destruct H
    | H : _ ∨ _ |- _ => destruct H
    | H : ∃ _, _ |- _ => destruct H
    | H : ¬ _ |- False => apply H; clear H
    | |- _ ∧ _ => split
    end;
  try discriminate; try congruence; eauto;
  try (exfalso; match goal with H : ¬ _ |- _ => apply H end; split; reflexivity).

Lemma Marshal_panic_iff {T : Type} (e : option (Encoding T)) (v : Value T) :
  isPointer v = true →
  (Marshal e v = Panic nil_call ↔ e = None ∧ v_MarshalBinary v = None).
Proof.
  intros Hp. unfold Marshal. rewrite Hp. simpl.
  destruct (v_MarshalBinary v) as [m|], e as [enc|]; simpl;
    try destruct (e_Marshal enc v); try destruct (m (v_content v));
    simpl; solve_cases.
Qed.

Lemma Marshal_returns_iff {T : Type} (e : option (Encoding T)) (v : Value T) :
  isPointer v = true →
  ((∃ a, Marshal e v = Ok a) ∨ (∃ err, Marshal e v = Err err)
   ↔ ¬ (e = None ∧ v_MarshalBinary v = None)).
Proof.
  intros Hp. unfold Marshal. rewrite Hp. simpl.
  destruct (v_MarshalBinary v) as [m|], e as [enc|]; simpl;
    try destruct (e_Marshal enc v); try destruct (m (v_content v));
    simpl; solve_cases.
Qed.

Lemma Unmarshal_panic_iff {T : Type} (e : option (Encoding T)) (data : bytes)
  (v : Value T) :
  isPointer v = true →
  ((Unmarshal e data v).1 = Panics nil_call
   ↔ e = None ∧ v_UnmarshalBinary v = None).
Proof.
  intros Hp. unfold Unmarshal. rewrite Hp. simpl.
  destruct (v_UnmarshalBinary v) as [u|], e as [enc|]; simpl;
    try destruct (e_Unmarshal enc data v) as [t [err|]];
    try destruct (u _ data) as [t' [err'|]];
    simpl; solve_cases.
Qed.

Lemma Unmarshal_returns_iff {T : Type} (e : option (Encoding T)) (data : bytes)
  (v : Value T) :
  isPointer v = true →
  (is_panic (Unmarshal e data v).1 = false
   ↔ ¬ (e = None ∧ v_UnmarshalBinary v = None)).
Proof.
  intros Hp. unfold Unmarshal. rewrite Hp. simpl.
  destruct (v_UnmarshalBinary v) as [u|], e as [enc|]; simpl;
    try destruct (e_Unmarshal enc data v) as [t [err|]];
    try destruct (u _ data) as [t' [err'|]];
    simpl; solve_cases.
Qed.

(** C10.  On a pointer value, [Marshal] panics with a nil-interface method
    call exactly when the encoding is nil and the value has no
    [MarshalBinary]; [Unmarshal] panics exactly when the encoding is nil
    and the target has no [UnmarshalBinary].  A result or an error is
    returned exactly when an encoding is supplied or the value has the
    capability. *)
Theorem Marshal_Unmarshal_nil_encoding_panic {T : Type}
  (e : option (Encoding T)) (data : bytes) (v : Value T) :
  isPointer v = true →
  (Marshal e v = Panic nil_call ↔ e = None ∧ v_MarshalBinary v = None)
  ∧ ((∃ a, Marshal e v = Ok a) ∨ (∃ err, Marshal e v = Err err)
       ↔ ¬ (e = None ∧ v_MarshalBinary v = None))
  ∧ ((Unmarshal e data v).1 = Panics nil_call
       ↔ e = None ∧ v_UnmarshalBinary v = None)
  ∧ (is_panic (Unmarshal e data v).1 = false
       ↔ ¬ (e = None ∧ v_UnmarshalBinary v = None)).
Proof.
  intros Hp. split; [|split; [|split]].
  - apply Marshal_panic_iff, Hp.
  - apply Marshal_returns_iff, Hp.
  - apply Unmarshal_panic_iff, Hp.
  - apply Unmarshal_returns_iff, Hp.
Qed.

Lemma Marshal_Unmarshal_nil_encoding_panic_witness :
  Marshal None (ptr "x") = Panic nil_call
  ∧ (Unmarshal None "x" (ptr "")).1 = Panics nil_call
  ∧ (∃ a, Marshal None (binPtr "x") = Ok a).
Proof.
  pose proof (Marshal_Unmarshal_nil_encoding_panic None "x" (ptr "x") eq_refl)
    as (Hm & _ & _ & _).
  pose proof (Marshal_Unmarshal_nil_encoding_panic None "x" (ptr "") eq_refl)
    as (_ & _ & Hu & _).
  split; [apply Hm; split; reflexivity|].
  split; [apply Hu; split; reflexivity|].
  exists "x". reflexivity.
Defined.

(** A value that is not a pointer is refused before the encoding is
    looked at, so a nil encoding does not panic there. *)
Lemma Marshal_not_pointer {T : Type} (e : option (Encoding T)) (v : Value T) :
  isPointer v = false → Marshal e v = Err ErrNotAPointer.
Proof. intros H. unfold Marshal. rewrite H. reflexivity. Qed.

Example Marshal_by_value_nil_encoding :
  Marshal None (byValue "x") = Err ErrNotAPointer.
Proof. reflexivity. Qed.

Lemma Unmarshal_not_pointer {T : Type} (e : option (Encoding T)) (data : bytes)
  (v : Value T) :
  isPointer v = false → Unmarshal e data v = (Error ErrNotAPointer, v_content v).
Proof. intros H. unfold Unmarshal. rewrite H. reflexivity. Qed.

(* ===================================================================== *)
(** ** Manager: properties *)
(* ===================================================================== *)

Lemma redis_Close_no_panic (c : conn) : is_panic (redis_Close c).1 = false.
Proof.
  unfold redis_Close. destruct (conn_closed c); simpl; [reflexivity|].
  destruct (conn_fault c); reflexivity.
Qed.

Lemma cluster_Close_no_panic (c : conn) : is_panic (cluster_Close c).1 = false.
Proof.
  unfold cluster_Close. destruct (conn_closed c); simpl; [reflexivity|].
  destruct (conn_fault c); reflexivity.
Qed.

Lemma Provider_Close_no_panic {T : Type} (p : Provider T) :
  is_panic (Provider_Close p).1 = false.
Proof.
  destruct p as [cache [c|]|cache [c|]|cache [c|]]; simpl; try reflexivity.
  - pose proof (redis_Close_no_panic c) as H.
    destruct (redis_Close c) as [r c']; exact H.
  - pose proof (cluster_Close_no_panic c) as H.
    destruct (cluster_Close c) as [r c']; exact H.
Qed.

(** After [Close], the provider has the same cache and the same client,
    and the client is marked closed. *)
Lemma Provider_Close_client {T : Type} (p : Provider T) (c : conn) :
  Provider_client p = Some c →
  ∃ c', Provider_client (Provider_Close p).2 = Some c' ∧ conn_closed c' = true
    ∧ conn_options c' = conn_options c
    ∧ Provider_GetCache (Provider_Close p).2 = Provider_GetCache p.
Proof.
  destruct p as [cache cl|cache cl|cache cl]; simpl; intros ->; simpl.
  - eexists; repeat split; reflexivity.
  - unfold redis_Close. destruct (conn_closed c) eqn:Hc; simpl;
      eexists; repeat split; try reflexivity; assumption.
  - unfold cluster_Close. destruct (conn_closed c) eqn:Hc; simpl;
      eexists; repeat split; try reflexivity; assumption.
Qed.

(** After [Close], the client a provider owns is marked closed. *)
Lemma Provider_Close_closes {T : Type} (p : Provider T) (c : conn) :
  Provider_client p = Some c →
  ∃ c', Provider_client (Provider_Close p).2 = Some c' ∧ conn_closed c' = true.
Proof.
  destruct p as [cache cl|cache cl|cache cl]; simpl; intros ->; simpl.
  - eexists; split; reflexivity.
  - unfold redis_Close. destruct (conn_closed c) eqn:Hc; simpl; eauto.
  - unfold cluster_Close. destruct (conn_closed c) eqn:Hc; simpl; eauto.
Qed.

Lemma redis_Close_idem (c : conn) :
  (redis_Close (redis_Close c).2).2 = (redis_Close c).2.
Proof.
  unfold redis_Close. destruct (conn_closed c) eqn:Hc; simpl; rewrite ?Hc;
    reflexivity.
Qed.

Lemma cluster_Close_idem (c : conn) :
  (cluster_Close (cluster_Close c).2).2 = (cluster_Close c).2.
Proof.
  unfold cluster_Close. destruct (conn_closed c) eqn:Hc; simpl; rewrite ?Hc;
    reflexivity.
Qed.

(** A second [Close] leaves the provider as the first one left it. *)
Lemma Provider_Close_twice {T : Type} (p : Provider T) :
  (Provider_Close (Provider_Close p).2).2 = (Provider_Close p).2.
Proof.
  destruct p as [cache [c|]|cache [c|]|cache [c|]]; try reflexivity; simpl.
  - pose proof (redis_Close_idem c) as H.
    destruct (redis_Close c) as [r c']; simpl in *.
    destruct (redis_Close c') as [r' c'']; simpl in *; subst; reflexivity.
  - pose proof (cluster_Close_idem c) as H.
    destruct (cluster_Close c) as [r c']; simpl in *.
    destruct (cluster_Close c') as [r' c'']; simpl in *; subst; reflexivity.
Qed.

(** A second [Close] of a single-node client fails: the client is
    closed.  A second [Close] of a cluster client returns nil. *)
Lemma redis_Close_twice (c : conn) :
  (redis_Close (redis_Close c).2).1 = Error ErrClosed
  ∧ (cluster_Close (cluster_Close c).2).1 = Nil.
Proof.
  unfold redis_Close, cluster_Close.
  destruct (conn_closed c) eqn:Hc; simpl; rewrite ?Hc; split; reflexivity.
Qed.

(** On an object that no earlier entry points to, [Close] returns what it
    returns on the object as registered. *)
Lemma Close_result_fresh {T : Type} (objs : gmap addr (Provider T))
  (visited : list addr) (a : addr) (p : Provider T) :
  objs !! a = Some p → a ∉ visited →
  Close_result objs visited a = (Provider_Close p).1.
Proof.
  intros Hl Hni. unfold Close_result. rewrite Hl.
  rewrite decide_False by exact Hni. reflexivity.
Qed.

(** The loop from a state in which the objects at [visited] have been
    closed and the others are as registered in [objs0]: every object an
    entry points to is closed, the result is the error carried in when
    every call succeeds, and otherwise the error of the last call that
    failed. *)
Lemma CloseAll_range_run {T : Type} (objs0 : gmap addr (Provider T))
  (entries : list (string * addr)) :
  ∀ (visited : list addr) (lastErr : ret) (objs : gmap addr (Provider T)),
  (∀ a, objs !! a
        = if decide (a ∈ visited)
          then (λ p, (Provider_Close p).2) <$> objs0 !! a
          else objs0 !! a) →
  Forall (λ na, is_Some (objs0 !! na.2)) entries →
  (∀ a, (CloseAll_range entries lastErr objs).2 !! a
        = if decide (a ∈ visited ++ entries.*2)
          then (λ p, (Provider_Close p).2) <$> objs0 !! a
          else objs0 !! a)
  ∧ ((∀ pre name a post, entries = pre ++ (name, a) :: post →
        Close_result objs0 (visited ++ pre.*2) a = Nil) →
     (CloseAll_range entries lastErr objs).1 = lastErr)
  ∧ (∀ pre name a err post, entries = pre ++ (name, a) :: post →
       Close_result objs0 (visited ++ pre.*2) a = Error err →
       (∀ mid n b post', post = mid ++ (n, b) :: post' →
          Close_result objs0 (visited ++ (pre ++ (name, a) :: mid).*2) b = Nil) →
       (CloseAll_range entries lastErr objs).1 = Error (Errorf name err)).
Proof.
  induction entries as [|[n0 a0] rest IH]; intros visited lastErr objs Hview Hall.
  - simpl. rewrite app_nil_r. split; [exact Hview|]. split; [reflexivity|].
    intros pre name a err post Heq. destruct pre; discriminate.
  - apply Forall_cons in Hall as [[p0 Hp0] Hall]. simpl in Hp0.
    (* the object the entry points to, and what Close does on it *)
    set (p := if decide (a0 ∈ visited) then (Provider_Close p0).2 else p0).
    assert (Hobj : objs !! a0 = Some p).
    { rewrite Hview, Hp0. unfold p. destruct (decide (a0 ∈ visited)); reflexivity. }
    assert (Hres : (Provider_Close p).1 = Close_result objs0 visited a0).
    { unfold Close_result, p. rewrite Hp0.
      destruct (decide (a0 ∈ visited)); reflexivity. }
    assert (Hnew : (Provider_Close p).2 = (Provider_Close p0).2).
    { unfold p. destruct (decide (a0 ∈ visited)); [|reflexivity].
      apply Provider_Close_twice. }
    assert (Hview' : ∀ a, <[a0 := (Provider_Close p).2]> objs !! a
                     = if decide (a ∈ visited ++ [a0])
                       then (λ q, (Provider_Close q).2) <$> objs0 !! a
                       else objs0 !! a).
    { intros a. destruct (decide (a = a0)) as [->|Hne].
      - rewrite lookup_insert_eq, Hnew, Hp0.
        rewrite decide_True by (apply elem_of_app; right; left). reflexivity.
      - rewrite lookup_insert_ne by congruence. rewrite Hview.
        destruct (decide (a ∈ visited)) as [Hin|Hni].
        + rewrite decide_True by (apply elem_of_app; left; exact Hin).
          reflexivity.
        + rewrite decide_False; [reflexivity|].
          intros Hc. apply elem_of_app in Hc as [Hc|Hc]; [contradiction|].
          apply list_elem_of_singleton in Hc. contradiction. }
    assert (Hstep : ∀ l, CloseAll_range ((n0, a0) :: rest) l objs
                    = CloseAll_range rest
                        (match Close_result objs0 visited a0 with
                         | Error err => Error (Errorf n0 err)
                         | _ => l
                         end)
                        (<[a0 := (Provider_Close p).2]> objs)).
    { intros l. simpl. rewrite Hobj, <- Hres.
      pose proof (Provider_Close_no_panic p) as Hn.
      destruct (Provider_Close p) as [[|err|w] p']; simpl in *;
        [reflexivity|reflexivity|discriminate]. }
    rewrite Hstep.
    set (l' := match Close_result objs0 visited a0 with
               | Error err => Error (Errorf n0 err) | _ => lastErr end).
    destruct (IH (visited ++ [a0]) l' (<[a0 := (Provider_Close p).2]> objs)
                Hview' Hall) as (IH1 & IH2 & IH3).
    assert (Happ : ∀ l : list addr, (visited ++ [a0]) ++ l = visited ++ a0 :: l).
    { intros l. rewrite <- app_assoc. reflexivity. }
    split; [|split].
    + intros a. rewrite IH1. simpl. rewrite Happ. reflexivity.
    + intros Hok. rewrite IH2.
      * unfold l'. specialize (Hok [] n0 a0 rest eq_refl). simpl in Hok.
        rewrite app_nil_r in Hok. rewrite Hok. reflexivity.
      * intros pre name a post Heq.
        specialize (Hok ((n0, a0) :: pre) name a post).
        simpl in Hok. rewrite Happ. apply Hok. rewrite Heq. reflexivity.
    + intros pre name a err post Heq Herr Hpost.
      destruct pre as [|[n1 a1] pre].
      * simpl in Heq. inversion Heq; subst. simpl in Herr.
        rewrite app_nil_r in Herr. rewrite IH2.
        -- unfold l'. rewrite Herr. reflexivity.
        -- intros mid n b post' Hsplit. rewrite Happ.
           apply (Hpost mid n b post' Hsplit).
      * simpl in Heq. inversion Heq; subst.
        apply (IH3 pre name a err post eq_refl).
        -- rewrite Happ. exact Herr.
        -- intros mid n b post' Hsplit. rewrite Happ.
           apply (Hpost mid n b post' Hsplit).
Qed.

(** C9.  [CloseAll] calls [Close] on the provider of every registered
    name, whether or not earlier calls failed: afterwards every name is
    still registered and finds its provider in its state after [Close]
    (the same cache, the same client, now closed), and no other object
    has changed.  It returns nil when every call succeeds, and otherwise the
    error of the last call, in iteration order, that failed, under the
    name of its entry, whatever failed before it.  The result of a call is
    the one [Close] gives on the object as earlier entries left it: a
    provider registered under two names is closed twice. *)
Theorem CloseAll_closes_all_returns_last_error {T : Type} (g : Registry T)
  (order : list (string * addr)) :
  order ≡ₚ map_to_list (pointers g) →
  (∀ name a, pointers g !! name = Some a → is_Some (objects g !! a)) →
  pointers (Manager_CloseAll g order).2 = pointers g
  ∧ (∀ name,
       Manager_GetProvider (Registry_view (Manager_CloseAll g order).2) name
       = (λ p, (Provider_Close p).2)
           <$> Manager_GetProvider (Registry_view g) name)
  ∧ (∀ name a, pointers g !! name = Some a →
       objects (Manager_CloseAll g order).2 !! a
       = (λ p, (Provider_Close p).2) <$> objects g !! a)
  ∧ (∀ name p c,
       Manager_GetProvider (Registry_view g) name = Some p →
       Provider_client p = Some c →
       ∃ p' c',
         Manager_GetProvider (Registry_view (Manager_CloseAll g order).2) name
         = Some p'
         ∧ Provider_GetCache p' = Provider_GetCache p
         ∧ Provider_client p' = Some c' ∧ conn_closed c' = true
         ∧ conn_options c' = conn_options c)
  ∧ (∀ a, (∀ name, pointers g !! name ≠ Some a) →
       objects (Manager_CloseAll g order).2 !! a = objects g !! a)
  ∧ ((∀ pre name a post, order = pre ++ (name, a) :: post →
        Close_result (objects g) pre.*2 a = Nil) →
     (Manager_CloseAll g order).1 = Nil)
  ∧ (∀ pre name a err post,
       order = pre ++ (name, a) :: post →
       Close_result (objects g) pre.*2 a = Error err →
       (∀ mid n b post', post = mid ++ (n, b) :: post' →
          Close_result (objects g) (pre ++ (name, a) :: mid).*2 b = Nil) →
       (Manager_CloseAll g order).1 = Error (Errorf name err)).
Proof.
  intros Hperm Hobjs. unfold Manager_CloseAll.
  assert (Hin : ∀ name a, (name, a) ∈ order ↔ pointers g !! name = Some a).
  { intros name a. rewrite Hperm. apply elem_of_map_to_list. }
  assert (Hall : Forall (λ na, is_Some (objects g !! na.2)) order).
  { apply Forall_forall. intros [name a] Hna. simpl.
    apply (Hobjs name a), Hin, Hna. }
  destruct (CloseAll_range_run (objects g) order [] Nil (objects g))
    as (H1 & H2 & H3); [intros a; reflexivity|exact Hall|].
  destruct (CloseAll_range order Nil (objects g)) as [r objs] eqn:Hrun.
  assert (Hreg : ∀ name a, pointers g !! name = Some a →
            objs !! a = (λ p, (Provider_Close p).2) <$> objects g !! a).
  { intros name a Hl. simpl in H1. rewrite H1. apply decide_True.
    apply list_elem_of_fmap. exists (name, a). split; [reflexivity|].
    apply Hin, Hl. }
  assert (Hview : ∀ name,
            Manager_GetProvider (Registry_view (mkRegistry (pointers g) objs)) name
            = (λ p, (Provider_Close p).2)
                <$> Manager_GetProvider (Registry_view g) name).
  { intros name. unfold Manager_GetProvider, Registry_view. cbn [providers].
    rewrite !lookup_omap. cbn [pointers objects].
    destruct (pointers g !! name) as [a|] eqn:Hl; [|reflexivity].
    cbn [mbind option_bind]. apply (Hreg name a Hl). }
  simpl in *. split; [reflexivity|].
  split; [|split; [|split; [|split; [|split]]]].
  - exact Hview.
  - exact Hreg.
  - intros name p c Hp Hc. rewrite Hview, Hp. cbn [fmap option_fmap option_map].
    exists (Provider_Close p).2.
    destruct (Provider_Close_client p c Hc) as (c' & Hc' & Hclosed & Hopts & Hcache).
    exists c'. repeat split; assumption.
  - intros a Hfree. rewrite H1. apply decide_False.
    intros Hc. apply list_elem_of_fmap in Hc as [[name a'] [Heq Hc]].
    simpl in Heq. subst a'. apply (Hfree name), Hin, Hc.
  - exact H2.
  - exact H3.
Qed.

Lemma sampleOrder_range : range_of sampleManager sampleOrder.
Proof.
  unfold range_of, sampleManager, sampleOrder, Manager_AddProvider, NewManager.
  simpl. rewrite map_to_list_insert.
  - apply Permutation_skip. rewrite insert_empty, map_to_list_singleton.
    reflexivity.
  - rewrite lookup_insert_ne by discriminate. apply lookup_empty.
Qed.

Lemma sharedOrder_range :
  [("main", 1%nat); ("alias", 1%nat)] ≡ₚ map_to_list (pointers sharedRegistry).
Proof.
  unfold sharedRegistry. cbn [pointers]. rewrite map_to_list_insert.
  - apply Permutation_skip. rewrite insert_empty, map_to_list_singleton.
    reflexivity.
  - rewrite lookup_insert_ne by discriminate. apply lookup_empty.
Qed.

Lemma CloseAll_closes_all_returns_last_error_witness :
  (Manager_CloseAll sharedRegistry [("main", 1%nat); ("alias", 1%nat)]).1
  = Error (Errorf "alias" ErrClosed)
  ∧ objects (Manager_CloseAll sharedRegistry
               [("main", 1%nat); ("alias", 1%nat)]).2 !! 1%nat
    = Some (Provider_Close (soundProvider "app")).2.
Proof.
  destruct (CloseAll_closes_all_returns_last_error sharedRegistry
              [("main", 1%nat); ("alias", 1%nat)] sharedOrder_range)
    as (_ & _ & Hclosed & _ & _ & _ & Hlast).
  - intros name a Hl. unfold sharedRegistry in *. cbn [pointers objects] in *.
    destruct (decide (name = "main")) as [->|Hm].
    + rewrite lookup_insert_eq in Hl. injection Hl as <-.
      rewrite lookup_insert_eq. eauto.
    + rewrite lookup_insert_ne in Hl by congruence.
      destruct (decide (name = "alias")) as [->|Ha].
      * rewrite lookup_insert_eq in Hl. injection Hl as <-.
        rewrite lookup_insert_eq. eauto.
      * rewrite lookup_insert_ne, lookup_empty in Hl by congruence.
        discriminate.
  - split.
    + apply (Hlast [("main", 1%nat)] "alias" 1%nat ErrClosed []).
      * reflexivity.
      * vm_compute. reflexivity.
      * intros mid n b post' Hsplit. destruct mid; discriminate.
    + rewrite (Hclosed "main" 1%nat).
      * unfold sharedRegistry. cbn [objects]. rewrite lookup_insert_eq.
        reflexivity.
      * unfold sharedRegistry. cbn [pointers]. apply lookup_insert_eq.
Defined.

(** The same computed directly: the sound client is closed by the first
    entry, and the second entry reports that it is closed. *)
Example CloseAll_shared_provider :
  (Manager_CloseAll sharedRegistry [("main", 1%nat); ("alias", 1%nat)]).1
  = Error (Errorf "alias" ErrClosed)
  ∧ (Manager_CloseAll sharedRegistry [("alias", 1%nat); ("main", 1%nat)]).1
    = Error (Errorf "main" ErrClosed).
Proof. split; vm_compute; reflexivity. Qed.

(** Two providers whose clients both fail to close: only the error of
    the one visited last is returned. *)
Example CloseAll_two_failures :
  (Manager_CloseAll sampleRegistry [("a", 1%nat); ("b", 2%nat)]).1
  = Error (Errorf "b" (ErrForeign "broken pipe"))
  ∧ (Manager_CloseAll sampleRegistry [("b", 2%nat); ("a", 1%nat)]).1
    = Error (Errorf "a" (ErrForeign "i/o timeout")).
Proof. split; vm_compute; reflexivity. Qed.

(* ===================================================================== *)
(** ** Provider construction: properties *)
(* ===================================================================== *)

(** [newRedisProvider] never looks at [Addr]: with a Redis block present
    it returns a provider. *)
Lemma newRedisProvider_ignores_Addr {T : Type} (config : Config)
  (rc : RedisConfig.t) (encoding : option (Encoding T)) (newObject : Value T) :
  Redis config = Some rc →
  is_provider (newRedisProvider config encoding newObject) = true.
Proof. intros H. unfold newRedisProvider. rewrite H. reflexivity. Qed.

(** [newRedisClusterProvider] refuses an empty address list. *)
Lemma newRedisClusterProvider_empty_Addrs {T : Type} (config : Config)
  (rc : RedisClusterConfig.t) (encoding : option (Encoding T))
  (newObject : Value T) :
  RedisCluster config = Some rc → RedisClusterConfig.Addrs rc = [] →
  newRedisClusterProvider config encoding newObject
  = Err (ErrNew "redis cluster address list is empty").
Proof.
  intros H Ha. unfold newRedisClusterProvider. rewrite H, Ha. reflexivity.
Qed.

(** C8, as the code behaves.  A single-node configuration whose [Addr] is
    empty yields a provider (holding a client built with the empty
    address), while a cluster configuration whose [Addrs] is empty is
    refused. *)
Theorem NewProvider_missing_address :
  NewProvider (Some redisNoAddr) (Some sampleCodec) (ptr "")
  = Ok (redisProvider (sampleCache "app")
          (Some (redis_NewClient
                   (RedisConfig.mk "" "" 0 10 2 0 Hour (5 * Second)
                      (3 * Second) (3 * Second)))))
  ∧ NewProvider (Some clusterNoAddrs) (Some sampleCodec) (ptr "")
    = Err (ErrNew "redis cluster address list is empty").
Proof. split; reflexivity. Qed.

(* ===================================================================== *)
(** ** Del: properties *)
(* ===================================================================== *)

Lemma Del_keys_spec (keyPrefix : string) (keys done : list string) :
  Del_keys keyPrefix keys (length done) (done ++ replicate (length keys) "")
  = done ++ map (Del_slot keyPrefix) keys.
Proof.
  revert done. induction keys as [|key rest IH]; intros done.
  - reflexivity.
  - assert (Hstep : ∀ x : string,
               Del_keys keyPrefix rest (S (length done))
                 (done ++ x :: replicate (length rest) "")
               = done ++ x :: map (Del_slot keyPrefix) rest).
    { intros x. specialize (IH (done ++ [x])).
      rewrite length_app in IH. simpl in IH.
      replace (length done + 1)%nat with (S (length done)) in IH by lia.
      rewrite <- !app_assoc in IH. exact IH. }
    simpl. unfold Del_slot at 1.
    destruct (BuildCacheKey keyPrefix key) as [cacheKey|err|w].
    + rewrite insert_app_r_alt by lia.
      replace (length done - length done)%nat with 0%nat by lia.
      simpl. apply Hstep.
    + apply Hstep.
    + apply Hstep.
Qed.

(** The DEL command of a remote backend carries one argument per
    requested key: the physical key, or the empty string in the place of
    a key that did not build. *)
Lemma Del_args_spec (keyPrefix : string) (keys : list string) :
  Del_args keyPrefix keys = map (Del_slot keyPrefix) keys.
Proof. apply (Del_keys_spec keyPrefix keys []). Qed.

(** The in-process backend looks at its first argument only. *)
Lemma memoryCache_Del_first_only {T : Type} (m : cacheObj T) (cli : ristretto)
  (key : string) (rest : list string) :
  memoryCache_Del m cli (key :: rest) = memoryCache_Del m cli [key].
Proof. reflexivity. Qed.

(** C7, as the code behaves.  With prefix ["app"] and the keys ["a"], the
    empty key and ["b"], the remote [Del] sends DEL over ["app:a"], the
    empty string and ["app:b"]: the
    key that failed to build is not dropped from the command, its slot is
    sent as the empty key, and a value stored under the empty key is
    deleted with the others. *)
Theorem redisCache_Del_sends_empty_slot :
  Del_args "app" ["a"; ""; "b"] = ["app:a"; ""; "app:b"]
  ∧ rdb redisWithEmptyKey !! "" = Some ("other", 0)
  ∧ (redisCache_Del (sampleCache "app") redisWithEmptyKey ["a"; ""; "b"]).1
    = Nil
  ∧ rdb (redisCache_Del (sampleCache "app") redisWithEmptyKey
           ["a"; ""; "b"]).2 !! "" = None.
Proof. repeat split; vm_compute; reflexivity. Qed.

(* ===================================================================== *)
(** ** SetCacheWithNotFound: properties *)
(* ===================================================================== *)

Lemma redis_SetCacheWithNotFound_up {T : Type} (c : cacheObj T)
  (cli : redisClient) (key cacheKey : string) :
  BuildCacheKey (c_KeyPrefix c) key = Ok cacheKey → down cli = None →
  redisCache_SetCacheWithNotFound c cli key
  = (Nil, mkRedis (<[cacheKey := placeholderEntry]> (rdb cli)) None).
Proof.
  intros Hk Hup. unfold redisCache_SetCacheWithNotFound, client_Set.
  rewrite Hk, Hup. reflexivity.
Qed.

Lemma memory_SetCacheWithNotFound_inv {T : Type} (m : cacheObj T)
  (cli cli' : ristretto) (key cacheKey : string) :
  BuildCacheKey (c_KeyPrefix m) key = Ok cacheKey →
  memoryCache_SetCacheWithNotFound m cli key = (Nil, cli') →
  (is_Some (store cli !! cacheKey)
   ∧ store cli' = <[cacheKey := placeholderItem]> (store cli)
   ∧ setBuf cli' = setBuf cli)
  ∨ (store cli !! cacheKey = None
     ∧ store cli' = store cli
     ∧ setBuf cli' = setBuf cli ++ [BufSet cacheKey (ItemBytes NotFoundPlaceholderBytes)
                                     DefaultNotFoundExpireTime]).
Proof.
  intros Hk. unfold memoryCache_SetCacheWithNotFound, ristretto_SetWithTTL.
  rewrite Hk. simpl.
  destruct (store cli !! cacheKey) as [old|] eqn:Hl; simpl.
  - intros H. inversion H; subst; simpl. left. eauto.
  - destruct (setBufRoom cli) as [|room]; simpl; intros H; [discriminate|].
    inversion H; subst; simpl. right. auto.
Qed.

Lemma memory_SetCacheWithNotFound_succeeds {T : Type} (m : cacheObj T)
  (cli : ristretto) (key cacheKey : string) :
  BuildCacheKey (c_KeyPrefix m) key = Ok cacheKey →
  is_Some (store cli !! cacheKey) ∨ setBufRoom cli ≠ 0%nat →
  (memoryCache_SetCacheWithNotFound m cli key).1 = Nil.
Proof.
  intros Hk Hroom. unfold memoryCache_SetCacheWithNotFound, ristretto_SetWithTTL.
  rewrite Hk. simpl.
  destruct (store cli !! cacheKey) as [old|] eqn:Hl; simpl; [reflexivity|].
  destruct Hroom as [[x Hx]|Hroom]; [discriminate|].
  destruct (setBufRoom cli); [congruence|reflexivity].
Qed.

(** C6.  For a non-empty key, on every backend, [SetCacheWithNotFound]
    writes the placeholder bytes with [DefaultNotFoundExpireTime] under the
    physical key, whatever default expire time the cache object carries:
    the remote backends store that entry whenever the client is reachable;
    the in-process backend, whenever the engine accepts the write, has
    either replaced the stored entry by it or queued exactly that write. *)
Theorem SetCacheWithNotFound_writes_placeholder {T : Type} (c : cacheObj T)
  (key : string) :
  key ≠ "" →
  ∃ cacheKey, BuildCacheKey (c_KeyPrefix c) key = Ok cacheKey
  ∧ (∀ cli, down cli = None →
       redisCache_SetCacheWithNotFound c cli key
       = (Nil, mkRedis (<[cacheKey := placeholderEntry]> (rdb cli)) None))
  ∧ (∀ cli, down cli = None →
       redisClusterCache_SetCacheWithNotFound c cli key
       = (Nil, mkRedis (<[cacheKey := placeholderEntry]> (rdb cli)) None))
  ∧ (∀ cli, is_Some (store cli !! cacheKey) ∨ setBufRoom cli ≠ 0%nat →
       (memoryCache_SetCacheWithNotFound c cli key).1 = Nil)
  ∧ (∀ cli cli', memoryCache_SetCacheWithNotFound c cli key = (Nil, cli') →
       (is_Some (store cli !! cacheKey)
        ∧ store cli' = <[cacheKey := placeholderItem]> (store cli)
        ∧ setBuf cli' = setBuf cli)
       ∨ (store cli !! cacheKey = None
          ∧ store cli' = store cli
          ∧ setBuf cli'
            = setBuf cli ++ [BufSet cacheKey (ItemBytes NotFoundPlaceholderBytes)
                               DefaultNotFoundExpireTime])).
Proof.
  intros Hk. destruct (BuildCacheKey_Ok (c_KeyPrefix c) key Hk) as [cacheKey Hb].
  exists cacheKey. split; [exact Hb|]. split; [|split; [|split]].
  - intros cli Hup. apply redis_SetCacheWithNotFound_up; assumption.
  - intros cli Hup. apply redis_SetCacheWithNotFound_up; assumption.
  - intros cli Hroom. eapply memory_SetCacheWithNotFound_succeeds; eassumption.
  - intros cli cli' H. eapply memory_SetCacheWithNotFound_inv; eassumption.
Qed.

Lemma SetCacheWithNotFound_writes_placeholder_witness :
  "u:2" ≠ ""
  ∧ rdb (redisCache_SetCacheWithNotFound (sampleCache "app") emptyRedis "u:2").2
      !! "app:u:2" = Some ("*", 600000000000)
  ∧ (memoryCache_SetCacheWithNotFound (sampleCache "app") (ristretto_new 8)
       "u:2").1 = Nil.
Proof.
  assert (Hne : "u:2" ≠ "") by discriminate.
  destruct (SetCacheWithNotFound_writes_placeholder (sampleCache "app") "u:2" Hne)
    as (cacheKey & Hb & Hr & _ & Hm & _).
  vm_compute in Hb. injection Hb as <-.
  split; [exact Hne|]. split.
  - rewrite (Hr emptyRedis eq_refl). simpl. apply lookup_insert_eq.
  - apply Hm. right. simpl. discriminate.
Defined.

(* ===================================================================== *)
(** ** Negative-cache write followed by a read *)
(* ===================================================================== *)

Lemma is_placeholder_placeholder : is_placeholder NotFoundPlaceholderBytes = true.
Proof. reflexivity. Qed.

(** Remote backends: the placeholder written by [SetCacheWithNotFound] is
    read back as [ErrPlaceholder], before any decoding, and the target
    keeps its content. *)
Lemma redis_SetCacheWithNotFound_Get {T : Type} (c : cacheObj T)
  (cli cli' : redisClient) (key : string) (val : Value T) :
  redisCache_SetCacheWithNotFound c cli key = (Nil, cli') →
  redisCache_Get c cli' key val = (Error ErrPlaceholder, v_content val).
Proof.
  unfold redisCache_SetCacheWithNotFound, redisCache_Get, client_Set, client_Get.
  destruct (BuildCacheKey (c_KeyPrefix c) key) as [cacheKey|err|w];
    [|discriminate|discriminate].
  destruct (down cli) as [e|]; [discriminate|].
  intros H. inversion H; subst; simpl. rewrite lookup_insert_eq. reflexivity.
Qed.

(** In-process backend, key already stored: the engine updates the entry
    at once and the read sees the placeholder. *)
Lemma memory_SetCacheWithNotFound_Get_update {T : Type} (m : cacheObj T)
  (cli cli' : ristretto) (key cacheKey : string) (val : Value T) :
  BuildCacheKey (c_KeyPrefix m) key = Ok cacheKey →
  is_Some (store cli !! cacheKey) →
  memoryCache_SetCacheWithNotFound m cli key = (Nil, cli') →
  memoryCache_Get m cli' key val = (Error ErrPlaceholder, v_content val).
Proof.
  intros Hk [old Hold] Hset.
  destruct (memory_SetCacheWithNotFound_inv m cli cli' key cacheKey Hk Hset)
    as [(_ & Hst & _)|(Hnone & _)]; [|congruence].
  unfold memoryCache_Get, ristretto_Get. rewrite Hk, Hst, lookup_insert_eq.
  reflexivity.
Qed.

(** In-process backend, key not stored yet: the write is only queued, and
    [SetCacheWithNotFound] returns without waiting for it; the read that
    follows reports a miss. *)
Lemma memory_SetCacheWithNotFound_Get_fresh {T : Type} (m : cacheObj T)
  (cli cli' : ristretto) (key cacheKey : string) (val : Value T) :
  BuildCacheKey (c_KeyPrefix m) key = Ok cacheKey →
  store cli !! cacheKey = None →
  memoryCache_SetCacheWithNotFound m cli key = (Nil, cli') →
  memoryCache_Get m cli' key val = (Error CacheNotFound, v_content val).
Proof.
  intros Hk Hnone Hset.
  destruct (memory_SetCacheWithNotFound_inv m cli cli' key cacheKey Hk Hset)
    as [([old Hold] & _)|(_ & Hst & _)]; [congruence|].
  unfold memoryCache_Get, ristretto_Get. rewrite Hk, Hst, Hnone. reflexivity.
Qed.

(** The worker applies a new item that the policy admits: the item is
    stored. *)
Lemma applyBuf_admitted (p : Policy) (st : gmap string (item * Z))
  (k : string) (v : item) (ttl : Z) (victims : list string) :
  st !! k = None → p st k = Some victims →
  applyBuf p st (BufSet k v ttl) = <[k := (v, ttl)]> (fold_right delete st victims).
Proof. intros Hl Hp. simpl. rewrite Hl, Hp. reflexivity. Qed.

(** Had the write been followed by [Wait], as in [Set], the read would
    see the placeholder, on an engine with nothing else queued whose
    policy admits the item. *)
Lemma memory_SetCacheWithNotFound_Wait_Get {T : Type} (m : cacheObj T)
  (cli cli' : ristretto) (key cacheKey : string) (val : Value T) :
  BuildCacheKey (c_KeyPrefix m) key = Ok cacheKey →
  store cli !! cacheKey = None → setBuf cli = [] →
  is_Some (policy cli (store cli) cacheKey) →
  memoryCache_SetCacheWithNotFound m cli key = (Nil, cli') →
  memoryCache_Get m (ristretto_Wait cli') key val
  = (Error ErrPlaceholder, v_content val).
Proof.
  intros Hk Hnone Hempty [victims Hp] Hset.
  assert (Hpol : policy cli' = policy cli).
  { revert Hset. unfold memoryCache_SetCacheWithNotFound, ristretto_SetWithTTL.
    rewrite Hk, Hnone. simpl. destruct (setBufRoom cli); simpl; [discriminate|].
    intros H. inversion H; subst; reflexivity. }
  destruct (memory_SetCacheWithNotFound_inv m cli cli' key cacheKey Hk Hset)
    as [([old Hold] & _)|(_ & Hst & Hbuf)]; [congruence|].
  unfold memoryCache_Get, ristretto_Get, ristretto_Wait. rewrite Hk.
  cbn [store]. rewrite Hbuf, Hempty, Hst, Hpol. cbn [app fold_left].
  rewrite (applyBuf_admitted _ _ _ _ _ victims Hnone Hp), lookup_insert_eq.
  reflexivity.
Qed.

(** C1, as the code behaves on the in-process backend.  On a fresh
    engine, [SetCacheWithNotFound "u:2"] succeeds and the [Get "u:2"] that
    follows returns the backend miss, not [ErrPlaceholder]; the target is
    left as it was. *)
Theorem memory_SetCacheWithNotFound_then_Get_misses :
  (memoryCache_SetCacheWithNotFound (sampleCache "app") (ristretto_new 8)
     "u:2").1 = Nil
  ∧ memoryCache_Get (sampleCache "app")
      (memoryCache_SetCacheWithNotFound (sampleCache "app") (ristretto_new 8)
         "u:2").2
      "u:2" (ptr "old")
    = (Error CacheNotFound, "old").
Proof. split; vm_compute; reflexivity. Qed.

(* ===================================================================== *)
(** ** Zero-length encodings *)
(* ===================================================================== *)

Lemma substitute_empty : substitute "" = NotFoundPlaceholderBytes.
Proof. reflexivity. Qed.

Lemma substitute_nonempty (buf : bytes) :
  String.length buf ≠ 0%nat → substitute buf = buf.
Proof.
  intros H. unfold substitute.
  destruct (Nat.eqb_spec (String.length buf) 0); [contradiction|reflexivity].
Qed.

(** What [substitute] returns is never of length zero. *)
Lemma substitute_length (buf : bytes) : String.length (substitute buf) ≠ 0%nat.
Proof.
  unfold substitute.
  destruct (Nat.eqb_spec (String.length buf) 0) as [H|H]; [discriminate|exact H].
Qed.

Lemma buf_fresh_new (room : nat) : buf_fresh (ristretto_new room).
Proof. constructor. Qed.

Lemma buf_fresh_Wait (c : ristretto) : buf_fresh (ristretto_Wait c).
Proof. constructor. Qed.

Lemma buf_fresh_SetWithTTL (c : ristretto) (key : string) (value : item)
  (cost ttl : Z) :
  buf_fresh c → buf_fresh (ristretto_SetWithTTL c key value cost ttl).2.
Proof.
  unfold buf_fresh, ristretto_SetWithTTL. intros H.
  destruct (ttl <? 0); [exact H|].
  destruct (store c !! key) as [old|] eqn:Hl; simpl.
  - eapply Forall_impl; [exact H|]. intros i Hi. simpl in Hi.
    rewrite lookup_insert_ne; [exact Hi|]. congruence.
  - destruct (setBufRoom c); simpl; [exact H|].
    apply Forall_app. split; [exact H|]. constructor; [exact Hl|constructor].
Qed.

Lemma buf_fresh_Del (c : ristretto) (key : string) :
  buf_fresh c → buf_fresh (ristretto_Del c key).
Proof.
  unfold buf_fresh, ristretto_Del. simpl. intros H.
  apply Forall_app. split.
  - eapply Forall_impl; [exact H|]. intros i Hi. simpl in Hi.
    destruct (decide (key = bufKey i)) as [->|Hne].
    + apply lookup_delete_eq.
    + rewrite lookup_delete_ne; assumption.
  - constructor; [apply lookup_delete_eq|constructor].
Qed.

(** [SetWithTTL] leaves the policy of the engine alone. *)
Lemma ristretto_SetWithTTL_policy (c : ristretto) (key : string) (value : item)
  (cost ttl : Z) :
  policy (ristretto_SetWithTTL c key value cost ttl).2 = policy c.
Proof.
  unfold ristretto_SetWithTTL. destruct (ttl <? 0); [reflexivity|].
  destruct (store c !! key); [reflexivity|].
  destruct (setBufRoom c); reflexivity.
Qed.


(** [SetWithTTL] followed by [Wait], with nothing else queued: the write
    is visible if the key was stored already or the policy admits the new
    item, and then every other key that the policy did not evict is as it
    was; a new item that the policy drops leaves the store as it was. *)
Lemma ristretto_SetWithTTL_Wait (c c' : ristretto) (key : string)
  (value : item) (cost ttl : Z) :
  setBuf c = [] →
  ristretto_SetWithTTL c key value cost ttl = (true, c') →
  (is_Some (store c !! key) →
     store (ristretto_Wait c') = <[key := (value, ttl)]> (store c))
  ∧ (∀ victims, store c !! key = None → policy c (store c) key = Some victims →
     store (ristretto_Wait c')
     = <[key := (value, ttl)]> (fold_right delete (store c) victims))
  ∧ (store c !! key = None → policy c (store c) key = None →
     store (ristretto_Wait c') = store c)
  ∧ setBuf (ristretto_Wait c') = []
  ∧ setBufRoom (ristretto_Wait c') = setBufRoom c
  ∧ policy (ristretto_Wait c') = policy c.
Proof.
  unfold ristretto_SetWithTTL, ristretto_Wait. intros Hempty.
  destruct (ttl <? 0); [discriminate|].
  destruct (store c !! key) as [old|] eqn:Hl.
  - intros H. inversion H; subst; cbn [store setBuf setBufRoom policy].
    rewrite Hempty. cbn [fold_left length].
    split; [reflexivity|]. split; [intros victims Hc; discriminate|].
    split; [intros Hc; discriminate|]. repeat split. lia.
  - destruct (setBufRoom c) as [|room] eqn:Hroom; [discriminate|].
    intros H. inversion H; subst; cbn [store setBuf setBufRoom policy].
    rewrite Hempty. cbn [app fold_left length]. split; [|split; [|split]].
    + intros [x Hx]. discriminate.
    + intros victims _ Hp. apply applyBuf_admitted; assumption.
    + intros _ Hp. simpl. rewrite Hl, Hp. reflexivity.
    + repeat split. lia.
Qed.

(** [Set] on the remote backends stores the placeholder for a value whose
    encoding is empty, and [Get] then reports [ErrPlaceholder]. *)
Lemma redis_Set_empty_encoding {T : Type} (c : cacheObj T) (cli : redisClient)
  (key cacheKey : string) (val target : Value T) (expiration : Z) :
  Marshal (c_encoding c) val = Ok "" →
  BuildCacheKey (c_KeyPrefix c) key = Ok cacheKey →
  down cli = None →
  redisCache_Set c cli key val expiration
  = (Nil, mkRedis (<[cacheKey := (NotFoundPlaceholderBytes,
                                  set_ttl expiration (rdb cli !! cacheKey))]>
                     (rdb cli))
            None)
  ∧ redisCache_Get c (redisCache_Set c cli key val expiration).2 key target
    = (Error ErrPlaceholder, v_content target).
Proof.
  intros Hm Hk Hup. unfold redisCache_Set, redisCache_Get, client_Set, client_Get.
  rewrite Hm, Hk, Hup. simpl. rewrite lookup_insert_eq. split; reflexivity.
Qed.

(** [Set] on the in-process backend does the same, when nothing else is
    queued and the engine keeps the item. *)
Lemma memory_Set_empty_encoding {T : Type} (m : cacheObj T) (cli : ristretto)
  (key cacheKey : string) (val target : Value T) (expiration : Z) :
  Marshal (c_encoding m) val = Ok "" →
  BuildCacheKey (c_KeyPrefix m) key = Ok cacheKey →
  setBuf cli = [] →
  is_Some (store cli !! cacheKey) ∨ is_Some (policy cli (store cli) cacheKey) →
  (memoryCache_Set m cli key val expiration).1 = Nil →
  store (memoryCache_Set m cli key val expiration).2 !! cacheKey
  = Some (ItemBytes NotFoundPlaceholderBytes, expiration)
  ∧ memoryCache_Get m (memoryCache_Set m cli key val expiration).2 key target
    = (Error ErrPlaceholder, v_content target).
Proof.
  intros Hm Hk Hempty Hkeep. unfold memoryCache_Set, memoryCache_Get, ristretto_Get.
  rewrite Hm, Hk. change (substitute "") with "*".
  destruct (ristretto_SetWithTTL cli cacheKey (ItemBytes "*") 0 expiration)
    as [[|] cli'] eqn:Hset; cbn [negb fst snd]; [|intros H; discriminate H].
  intros _.
  destruct (ristretto_SetWithTTL_Wait cli cli' cacheKey _ 0 expiration Hempty Hset)
    as (Hupd & Hnew & _).
  assert (Hst : store (ristretto_Wait cli') !! cacheKey
                = Some (ItemBytes "*", expiration)).
  { destruct (store cli !! cacheKey) as [old|] eqn:Hl.
    - rewrite Hupd by eauto. apply lookup_insert_eq.
    - destruct Hkeep as [[x Hx]|[victims Hp]]; [discriminate|].
      rewrite (Hnew victims eq_refl Hp). apply lookup_insert_eq. }
  rewrite Hst. split; reflexivity.
Qed.

(** The remote [MultiSet] queues each encoding as it is: nothing is
    substituted for an empty one. *)
Lemma MultiSet_pairs_single {T : Type} (c : cacheObj T) (key cacheKey : string)
  (value : Value T) (buf : bytes) :
  Marshal (c_encoding c) value = Ok buf →
  BuildCacheKey (c_KeyPrefix c) key = Ok cacheKey →
  MultiSet_pairs c [(key, value)] [] = Ok [cacheKey; buf].
Proof. intros Hm Hk. simpl. rewrite Hm, Hk. reflexivity. Qed.

(** C2, as the code behaves.  The sample codec encodes the empty content
    to zero bytes.  [Set] stores the placeholder for it, but the remote
    [MultiSet] stores the empty byte sequence itself; a later [Get]
    reports [ErrPlaceholder] in both cases. *)
Theorem redisCache_MultiSet_stores_empty_bytes :
  Marshal (Some sampleCodec) (ptr "") = Ok ""
  ∧ rdb (redisCache_Set (sampleCache "app") emptyRedis "k" (ptr "") Hour).2
      !! "app:k" = Some ("*", Hour)
  ∧ (redisCache_MultiSet (sampleCache "app") emptyRedis [("k", ptr "")] Hour).1
    = Nil
  ∧ rdb (redisCache_MultiSet (sampleCache "app") emptyRedis [("k", ptr "")]
           Hour).2 !! "app:k" = Some ("", Hour)
  ∧ redisCache_Get (sampleCache "app")
      (redisCache_MultiSet (sampleCache "app") emptyRedis [("k", ptr "")]
         Hour).2 "k" (ptr "old")
    = (Error ErrPlaceholder, "old").
Proof. repeat split; vm_compute; reflexivity. Qed.

(* ===================================================================== *)
(** ** MultiSet with an entry that fails to encode *)
(* ===================================================================== *)

Lemma memoryCache_Set_encode_error {T : Type} (m : cacheObj T)
  (cli : ristretto) (key : string) (val : Value T) (expiration : Z)
  (err : error) :
  Marshal (c_encoding m) val = Err err →
  memoryCache_Set m cli key val expiration
  = (Error (Errorf "memory.Set: encode" err), cli).
Proof. intros H. unfold memoryCache_Set. rewrite H. reflexivity. Qed.

(** The in-process [MultiSet] stops at the first [Set] that fails: when
    the entry visited first fails to encode, nothing at all is written. *)
Lemma memoryCache_MultiSet_poisoned_first {T : Type} (m : cacheObj T)
  (cli : ristretto) (key : string) (value : Value T)
  (rest : list (string * Value T)) (expiration : Z) (err : error) :
  Marshal (c_encoding m) value = Err err →
  memoryCache_MultiSet m cli ((key, value) :: rest) expiration
  = (Error (Errorf "memory.Set: encode" err), cli).
Proof.
  intros H. simpl. rewrite (memoryCache_Set_encode_error _ _ _ _ _ _ H).
  reflexivity.
Qed.

(** In whatever order the map is visited, an entry that fails to encode
    makes the in-process [MultiSet] return an error (or panic). *)
Lemma memoryCache_MultiSet_poisoned {T : Type} (m : cacheObj T)
  (valueMap : list (string * Value T)) (expiration : Z) (key : string)
  (value : Value T) (err : error) (cli : ristretto) :
  In (key, value) valueMap →
  Marshal (c_encoding m) value = Err err →
  (memoryCache_MultiSet m cli valueMap expiration).1 ≠ Nil.
Proof.
  intros Hin Hm. revert cli.
  induction valueMap as [|[k v] rest IH]; intros cli; [destruct Hin|].
  simpl. destruct Hin as [Heq|Hin].
  - inversion Heq; subst.
    rewrite (memoryCache_Set_encode_error _ _ _ _ _ _ Hm). discriminate.
  - destruct (memoryCache_Set m cli k v expiration) as [[|e|w] cli'];
      simpl; [apply IH, Hin|discriminate|discriminate].
Qed.

(** C3, as the code behaves.  One entry fails to encode; the other is
    sound.  The in-process [MultiSet] returns the encode error in either
    visiting order, and when the failing entry comes first the sound one
    is never written.  The remote [MultiSet] skips the failing entry,
    writes the sound one and returns nil. *)
Theorem memoryCache_MultiSet_aborts_on_poisoned_entry :
  Marshal (Some sampleCodec) (ptr "poison") = Err (ErrForeign "unsupported")
  ∧ memoryCache_MultiSet (sampleCache "app") (ristretto_new 8)
      [("a", ptr "poison"); ("b", ptr "v")] Hour
    = (Error (Errorf "memory.Set: encode" (ErrForeign "unsupported")),
       ristretto_new 8)
  ∧ (memoryCache_MultiSet (sampleCache "app") (ristretto_new 8)
       [("b", ptr "v"); ("a", ptr "poison")] Hour).1
    = Error (Errorf "memory.Set: encode" (ErrForeign "unsupported"))
  ∧ (redisCache_MultiSet (sampleCache "app") emptyRedis
       [("a", ptr "poison"); ("b", ptr "v")] Hour).1 = Nil
  ∧ rdb (redisCache_MultiSet (sampleCache "app") emptyRedis
           [("a", ptr "poison"); ("b", ptr "v")] Hour).2 !! "app:b"
    = Some ("v", Hour).
Proof. repeat split; vm_compute; reflexivity. Qed.

(* ===================================================================== *)
(** ** MultiGet: the keys of the result map *)
(* ===================================================================== *)

(** The in-process [MultiGet] only ever assigns at the keys it was given. *)
Lemma memoryCache_MultiGet_other {T : Type} (m : cacheObj T) (cli : ristretto)
  (keys : list string) (value : gmap string (Value T)) (k : string) :
  k ∉ keys → (memoryCache_MultiGet m cli keys value).2 !! k = value !! k.
Proof.
  revert value. induction keys as [|key rest IH]; intros value Hk.
  - reflexivity.
  - apply not_elem_of_cons in Hk as [Hne Hk]. simpl.
    destruct (memoryCache_Get m cli key (c_newObject m)) as [[|e|w] t].
    + rewrite IH by exact Hk. apply lookup_insert_ne. congruence.
    + apply IH, Hk.
    + reflexivity.
Qed.

(** A key whose [Get] succeeds is entered under that same, logical key. *)
Lemma memoryCache_MultiGet_single {T : Type} (m : cacheObj T) (cli : ristretto)
  (key : string) (value : gmap string (Value T)) (t : T) :
  memoryCache_Get m cli key (c_newObject m) = (Nil, t) →
  memoryCache_MultiGet m cli [key] value
  = (Nil, <[key := set_content (c_newObject m) t]> value).
Proof. intros H. simpl. rewrite H. reflexivity. Qed.

(** The remote [MultiGet] only ever assigns at the physical keys. *)
Lemma MultiGet_inject_other {T : Type} (c : cacheObj T)
  (slots : list (string * option bytes)) (valueMap : gmap string (Value T))
  (k : string) :
  k ∉ slots.*1 → (MultiGet_inject c slots valueMap).2 !! k = valueMap !! k.
Proof.
  revert valueMap. induction slots as [|[ck v] rest IH]; intros valueMap Hk.
  - reflexivity.
  - simpl in Hk. apply not_elem_of_cons in Hk as [Hne Hk]. simpl.
    destruct v as [dataBytes|]; [|apply IH, Hk].
    destruct (is_placeholder dataBytes); [apply IH, Hk|].
    destruct (Unmarshal (c_encoding c) dataBytes (c_newObject c)) as [[|e|w] t].
    + rewrite IH by exact Hk. apply lookup_insert_ne. congruence.
    + apply IH, Hk.
    + reflexivity.
Qed.

(** C4, as the code behaves.  With prefix ["app"], after [Set "u:1"], the
    in-process [MultiGet] enters the decoded value under the logical key
    ["u:1"] and nothing under the physical key ["app:u:1"]; the remote
    [MultiGet] enters it under ["app:u:1"]. *)
Theorem memoryCache_MultiGet_keys_by_logical_key :
  (memoryCache_MultiGet (sampleCache "app")
     (memoryCache_Set (sampleCache "app") (ristretto_new 8) "u:1" (ptr "A")
        Hour).2 ["u:1"] ∅).1 = Nil
  ∧ (memoryCache_MultiGet (sampleCache "app")
       (memoryCache_Set (sampleCache "app") (ristretto_new 8) "u:1" (ptr "A")
          Hour).2 ["u:1"] ∅).2 !! "u:1" = Some (ptr "A")
  ∧ (memoryCache_MultiGet (sampleCache "app")
       (memoryCache_Set (sampleCache "app") (ristretto_new 8) "u:1" (ptr "A")
          Hour).2 ["u:1"] ∅).2 !! "app:u:1" = None
  ∧ (redisCache_MultiGet (sampleCache "app")
       (redisCache_Set (sampleCache "app") emptyRedis "u:1" (ptr "A") Hour).2
       ["u:1"] ∅).2 !! "app:u:1" = Some (ptr "A")
  ∧ (redisCache_MultiGet (sampleCache "app")
       (redisCache_Set (sampleCache "app") emptyRedis "u:1" (ptr "A") Hour).2
       ["u:1"] ∅).2 !! "u:1" = None.
Proof. repeat split; vm_compute; reflexivity. Qed.

(* ===================================================================== *)
(** ** The remote MultiSet writes every entry that survives *)
(* ===================================================================== *)

Lemma append_inj_r (p a b : string) :
  String.append p a = String.append p b → a = b.
Proof.
  induction p as [|ch p IH]; simpl; intros H; [exact H|].
  injection H as H. apply IH, H.
Qed.

(** For a fixed prefix the key builder is injective. *)
Lemma BuildCacheKey_inj (prefix k1 k2 cacheKey : string) :
  BuildCacheKey prefix k1 = Ok cacheKey →
  BuildCacheKey prefix k2 = Ok cacheKey → k1 = k2.
Proof.
  unfold BuildCacheKey.
  destruct (String.eqb k1 ""), (String.eqb k2 ""); try discriminate.
  destruct (String.eqb prefix ""); simpl; intros H1 H2.
  - congruence.
  - rewrite <- H2 in H1. injection H1 as H1.
    apply append_inj_r in H1. apply (append_inj_r ":") in H1. exact H1.
Qed.

Lemma Marshal_Some_no_panic {T : Type} (enc : Encoding T) (v : Value T)
  (w : string) : Marshal (Some enc) v ≠ Panic w.
Proof.
  unfold Marshal. destruct (negb (isPointer v)); [discriminate|].
  destruct (v_MarshalBinary v) as [m|]; simpl;
    destruct (e_Marshal enc v); try discriminate;
    destruct (m (v_content v)); discriminate.
Qed.

Lemma survivors_elem {T : Type} (c : cacheObj T)
  (valueMap : list (string * Value T)) (cacheKey : string) (buf : bytes) :
  (cacheKey, buf) ∈ survivors c valueMap ↔
  ∃ key value, (key, value) ∈ valueMap
    ∧ Marshal (c_encoding c) value = Ok buf
    ∧ BuildCacheKey (c_KeyPrefix c) key = Ok cacheKey.
Proof.
  induction valueMap as [|[k v] rest IH]; simpl.
  - split; [intros H; inversion H|intros (key & value & H & _); inversion H].
  - destruct (Marshal (c_encoding c) v) as [b|e|w] eqn:Hm;
      destruct (BuildCacheKey (c_KeyPrefix c) k) as [ck|e'|w'] eqn:Hk;
      try (rewrite IH; split;
           [ intros (key & value & Hin & H1 & H2); exists key, value;
             split; [right; exact Hin|split; assumption]
           | intros (key & value & Hin & H1 & H2);
             apply elem_of_cons in Hin as [Heq|Hin];
             [inversion Heq; subst; congruence
             |exists key, value; split; [exact Hin|split; assumption]] ]).
    rewrite elem_of_cons, IH. split.
    + intros [Heq|(key & value & Hin & H1 & H2)].
      * inversion Heq; subst. exists k, v. split; [left|split; assumption].
      * exists key, value. split; [right; exact Hin|split; assumption].
    + intros (key & value & Hin & H1 & H2).
      apply elem_of_cons in Hin as [Heq|Hin].
      * inversion Heq; subst. left. congruence.
      * right. exists key, value. split; [exact Hin|split; assumption].
Qed.

Lemma survivors_NoDup {T : Type} (c : cacheObj T)
  (valueMap : list (string * Value T)) :
  NoDup valueMap.*1 → NoDup (survivors c valueMap).*1.
Proof.
  induction valueMap as [|[k v] rest IH]; simpl; intros Hnd; [constructor|].
  apply NoDup_cons in Hnd as [Hk Hnd].
  destruct (Marshal (c_encoding c) v) as [b|e|w] eqn:Hm;
    destruct (BuildCacheKey (c_KeyPrefix c) k) as [ck|e'|w'] eqn:Hb;
    try (apply IH, Hnd).
  simpl. apply NoDup_cons. split; [|apply IH, Hnd].
  intros Hin. apply list_elem_of_fmap in Hin as [[ck' b'] [Heq Hin]].
  simpl in Heq. subst ck'.
  apply survivors_elem in Hin as (key & value & Hin & _ & Hb').
  assert (key = k) by (eapply BuildCacheKey_inj; eassumption). subst key.
  apply Hk. apply list_elem_of_fmap. exists (k, value). split; [reflexivity|exact Hin].
Qed.

(** The first loop collects exactly the survivors, in visiting order. *)
Lemma MultiSet_pairs_spec {T : Type} (c : cacheObj T) (enc : Encoding T)
  (valueMap : list (string * Value T)) (paris : list bytes) :
  c_encoding c = Some enc →
  MultiSet_pairs c valueMap paris = Ok (paris ++ flatten (survivors c valueMap)).
Proof.
  intros He. revert paris.
  induction valueMap as [|[k v] rest IH]; intros paris; simpl.
  - rewrite app_nil_r. reflexivity.
  - pose proof (Marshal_Some_no_panic enc v) as Hnp. rewrite <- He in Hnp.
    destruct (Marshal (c_encoding c) v) as [b|e|w] eqn:Hm.
    + pose proof (BuildCacheKey_no_panic (c_KeyPrefix c) k) as Hbp.
      destruct (BuildCacheKey (c_KeyPrefix c) k) as [ck|e'|w'] eqn:Hb.
      * rewrite IH. simpl. rewrite <- !app_assoc. reflexivity.
      * apply IH.
      * exfalso. eapply Hbp. reflexivity.
    + apply IH.
    + exfalso. eapply Hnp. reflexivity.
Qed.

Lemma mset_args_flatten (l : list (string * bytes))
  (db : gmap string (bytes * Z)) :
  mset_args db (flatten l) = Some (mset_db l db).
Proof.
  revert db. induction l as [|[k b] rest IH]; intros db; [reflexivity|].
  simpl. apply IH.
Qed.

Lemma MultiSet_expires_flatten (l : list (string * bytes)) (expiration : Z) :
  MultiSet_expires (flatten l) expiration
  = map (λ kb, CmdExpire kb.1 expiration) l.
Proof.
  induction l as [|[k b] rest IH]; [reflexivity|]. simpl. rewrite IH.
  reflexivity.
Qed.

(** A positive duration is sent as at least one second. *)
Lemma formatSec_pos (dur : Z) : 0 < dur → 0 < formatSec dur.
Proof.
  intros Hpos. unfold formatSec.
  destruct (Z.ltb_spec 0 dur); [|lia].
  destruct (Z.ltb_spec dur Second) as [Hlt|Hge]; simpl; [lia|].
  apply Z.quot_str_pos. unfold Second, Nanosecond in *. lia.
Qed.


(** EXPIRE with a positive duration sets the time to live of a key that
    exists, in whole seconds, and does nothing otherwise. *)
Lemma server_expire_alter (db : gmap string (bytes * Z)) (k : string)
  (expiration : Z) :
  0 < expiration →
  server_cmd db (CmdExpire k expiration)
  = (Nil, alter (λ e, (e.1, formatSec expiration * Second)) k db).
Proof.
  intros Hpos. pose proof (formatSec_pos expiration Hpos) as Hsec.
  cbn [server_cmd]. destruct (db !! k) as [[v t]|] eqn:Hl.
  - destruct (Z.leb_spec (formatSec expiration) 0); [lia|]. f_equal.
    apply map_eq. intros i. rewrite lookup_alter.
    destruct (decide (k = i)) as [->|Hne].
    + rewrite lookup_insert_eq, Hl. reflexivity.
    + rewrite lookup_insert_ne by exact Hne. reflexivity.
  - f_equal. apply map_eq. intros i. rewrite lookup_alter.
    destruct (decide (k = i)) as [->|Hne]; [rewrite Hl|]; reflexivity.
Qed.

Lemma server_cmds_expires (l : list (string * bytes))
  (db : gmap string (bytes * Z)) (expiration : Z) :
  0 < expiration →
  server_cmds db (map (λ kb, CmdExpire kb.1 expiration) l)
  = (Nil, expire_db expiration l db).
Proof.
  intros Hpos. revert db. induction l as [|[k b] rest IH]; intros db.
  - reflexivity.
  - cbn [map server_cmds]. rewrite server_expire_alter by exact Hpos.
    rewrite IH. reflexivity.
Qed.

Lemma mset_db_lookup (l : list (string * bytes)) (db : gmap string (bytes * Z))
  (k : string) (b : bytes) :
  NoDup l.*1 → (k, b) ∈ l → mset_db l db !! k = Some (b, 0).
Proof.
  unfold mset_db. revert db.
  induction l as [|[k' b'] rest IH]; intros db Hnd Hin; [inversion Hin|].
  simpl in Hnd. apply NoDup_cons in Hnd as [Hk Hnd]. simpl.
  apply elem_of_cons in Hin as [Heq|Hin].
  - inversion Heq; subst. clear IH Hnd.
    assert (Hkeep : ∀ d : gmap string (bytes * Z), d !! k' = Some (b', 0) →
              fold_left (λ d kb, <[kb.1 := (kb.2, 0)]> d) rest d !! k'
              = Some (b', 0)).
    { induction rest as [|[k2 b2] rest IH]; intros d Hd; [exact Hd|].
      simpl in Hk. apply not_elem_of_cons in Hk as [Hne Hk]. simpl.
      apply IH; [exact Hk|]. rewrite lookup_insert_ne by congruence. exact Hd. }
    apply Hkeep. apply lookup_insert_eq.
  - apply IH; assumption.
Qed.

Lemma expire_db_lookup (l : list (string * bytes))
  (db : gmap string (bytes * Z)) (expiration : Z) (k : string) (b : bytes)
  (t : Z) :
  k ∈ l.*1 → db !! k = Some (b, t) →
  expire_db expiration l db !! k = Some (b, formatSec expiration * Second).
Proof.
  assert (Hkeep : ∀ rest (d : gmap string (bytes * Z)),
            d !! k = Some (b, formatSec expiration * Second) →
            expire_db expiration rest d !! k
            = Some (b, formatSec expiration * Second)).
  { unfold expire_db.
    induction rest as [|[k2 b2] rest IH]; intros d Hd; [exact Hd|].
    simpl. apply IH. rewrite lookup_alter.
    destruct (decide (k2 = k)) as [->|Hne]; [rewrite Hd|exact Hd]; reflexivity. }
  revert db t. induction l as [|[k' b'] rest IH]; intros db t Hin Hdb.
  - inversion Hin.
  - unfold expire_db in *. simpl. destruct (decide (k' = k)) as [->|Hne].
    + apply Hkeep. rewrite lookup_alter_eq, Hdb. reflexivity.
    + simpl in Hin. apply elem_of_cons in Hin as [Heq|Hin]; [congruence|].
      apply (IH _ t Hin). rewrite lookup_alter_ne by exact Hne. exact Hdb.
Qed.

(** On a reachable server and with a positive expiration, the remote
    [MultiSet] over a map of which at least one entry survives returns nil,
    and every entry that encodes and whose key builds is stored under its
    physical key with the given expiration in whole seconds; the entries
    that failed are skipped. *)
Lemma redisCache_MultiSet_writes_survivors {T : Type} (c : cacheObj T)
  (enc : Encoding T) (cli : redisClient) (valueMap : list (string * Value T))
  (expiration : Z) :
  c_encoding c = Some enc → down cli = None → 0 < expiration →
  NoDup valueMap.*1 → survivors c valueMap ≠ [] →
  (redisCache_MultiSet c cli valueMap expiration).1 = Nil
  ∧ ∀ key value cacheKey buf,
      (key, value) ∈ valueMap →
      Marshal (c_encoding c) value = Ok buf →
      BuildCacheKey (c_KeyPrefix c) key = Ok cacheKey →
      rdb (redisCache_MultiSet c cli valueMap expiration).2 !! cacheKey
      = Some (buf, formatSec expiration * Second).
Proof.
  intros He Hup Hpos Hnd Hne. unfold redisCache_MultiSet.
  destruct valueMap as [|kv rest] eqn:Hvm; [contradiction Hne; reflexivity|].
  rewrite <- Hvm in *. replace (length valueMap =? 0)%nat with false
    by (rewrite Hvm; reflexivity).
  rewrite (MultiSet_pairs_spec c enc valueMap [] He). simpl app.
  set (l := survivors c valueMap) in *.
  unfold pipeline_Exec. rewrite Hup. cbn [server_cmds].
  assert (Hmset : server_cmd (rdb cli) (CmdMSet (flatten l))
                  = (Nil, mset_db l (rdb cli))).
  { destruct l as [|[k b] l'] eqn:Hl; [contradiction Hne; reflexivity|].
    rewrite <- Hl. unfold server_cmd. rewrite mset_args_flatten.
    rewrite Hl. reflexivity. }
  rewrite Hmset, MultiSet_expires_flatten, server_cmds_expires by exact Hpos.
  simpl. split; [reflexivity|].
  intros key value cacheKey buf Hin Hm Hb.
  assert (Hs : (cacheKey, buf) ∈ l).
  { apply survivors_elem. exists key, value. auto. }
  apply (expire_db_lookup l _ expiration cacheKey buf 0).
  - apply list_elem_of_fmap. exists (cacheKey, buf). split; [reflexivity|exact Hs].
  - apply mset_db_lookup; [apply survivors_NoDup, Hnd|exact Hs].
Qed.

(** When no entry survives, the MSET command has no argument, the server
    refuses it, and the remote [MultiSet] returns that error. *)
Example redisCache_MultiSet_no_survivor :
  redisCache_MultiSet (sampleCache "app") emptyRedis [("a", ptr "poison")] Hour
  = (Error (Errorf "redis.MultiSet: exec" wrong_arity), emptyRedis).
Proof. vm_compute. reflexivity. Qed.

(* ===================================================================== *)
(** ** Key builder: namespaces *)
(* ===================================================================== *)

(** Under one prefix, two logical keys that build the same physical key
    are the same key. *)
Theorem BuildCacheKey_injective_in_key (prefix k1 k2 cacheKey : string) :
  BuildCacheKey prefix k1 = Ok cacheKey →
  BuildCacheKey prefix k2 = Ok cacheKey →
  k1 = k2.
Proof. apply BuildCacheKey_inj. Qed.

Lemma BuildCacheKey_injective_in_key_witness : "u:1" = "u:1".
Proof.
  apply (BuildCacheKey_injective_in_key "app" "u:1" "u:1" "app:u:1");
    reflexivity.
Defined.

Lemma append_assoc_string (a b c : string) :
  String.append (String.append a b) c = String.append a (String.append b c).
Proof.
  induction a as [|ch a IH]; [reflexivity|].
  change (String ch (String.append (String.append a b) c)
          = String ch (String.append a (String.append b c))).
  rewrite IH. reflexivity.
Qed.

Lemma append_nonempty_r (a b : string) : b ≠ "" → String.append a b ≠ "".
Proof. destruct a; simpl; [tauto|discriminate]. Qed.

Lemma BuildCacheKey_joined (prefix key : string) :
  prefix ≠ "" → key ≠ "" →
  BuildCacheKey prefix key = Ok (String.append prefix (String.append ":" key)).
Proof.
  intros Hp Hk. unfold BuildCacheKey.
  rewrite (eqb_empty_false _ Hk), (eqb_empty_false _ Hp). reflexivity.
Qed.

(** The separator is not escaped: moving a segment from the end of the
    prefix to the front of the key gives the same physical key, so two
    different prefixes do not keep their keys apart. *)
Theorem BuildCacheKey_prefix_segments_collide (prefix seg key : string) :
  prefix ≠ "" → key ≠ "" →
  BuildCacheKey (String.append prefix (String.append ":" seg)) key
  = BuildCacheKey prefix (String.append seg (String.append ":" key))
  ∧ BuildCacheKey prefix (String.append seg (String.append ":" key))
    = Ok (String.append prefix
            (String.append ":" (String.append seg (String.append ":" key)))).
Proof.
  intros Hp Hk.
  assert (H1 : String.append prefix (String.append ":" seg) ≠ "").
  { apply append_nonempty_r. discriminate. }
  assert (H2 : String.append seg (String.append ":" key) ≠ "").
  { apply append_nonempty_r. discriminate. }
  rewrite (BuildCacheKey_joined _ _ H1 Hk), (BuildCacheKey_joined _ _ Hp H2).
  split; [|reflexivity].
  rewrite append_assoc_string. reflexivity.
Qed.

Lemma BuildCacheKey_prefix_segments_collide_witness :
  BuildCacheKey "app:user" "7" = BuildCacheKey "app" "user:7"
  ∧ BuildCacheKey "app" "user:7" = Ok "app:user:7".
Proof.
  apply (BuildCacheKey_prefix_segments_collide "app" "user" "7"); discriminate.
Defined.

(* ===================================================================== *)
(** ** Single-key operations *)
(* ===================================================================== *)

Lemma is_placeholder_false (buf : bytes) :
  String.length buf ≠ 0%nat → buf ≠ NotFoundPlaceholderBytes →
  is_placeholder buf = false.
Proof.
  intros Hl Hp. unfold is_placeholder.
  destruct (Nat.eqb_spec (String.length buf) 0); [contradiction|].
  destruct (String.eqb_spec buf NotFoundPlaceholderBytes); [contradiction|].
  reflexivity.
Qed.

(** Remote backends, round trip: a value whose encoding is neither empty
    nor the placeholder is stored by [Set] and the [Get] that follows
    decodes those same bytes into the target. *)
Theorem redisCache_Set_Get_roundtrip {T : Type} (c : cacheObj T)
  (cli : redisClient) (key : string) (val target : Value T) (expiration : Z)
  (buf : bytes) (t : T) :
  key ≠ "" → down cli = None →
  Marshal (c_encoding c) val = Ok buf →
  String.length buf ≠ 0%nat → buf ≠ NotFoundPlaceholderBytes →
  Unmarshal (c_encoding c) buf target = (Nil, t) →
  (redisCache_Set c cli key val expiration).1 = Nil
  ∧ redisCache_Get c (redisCache_Set c cli key val expiration).2 key target
    = (Nil, t).
Proof.
  intros Hk Hup Hm Hl Hp Hu.
  destruct (BuildCacheKey_Ok (c_KeyPrefix c) key Hk) as [cacheKey Hb].
  unfold redisCache_Set, redisCache_Get, client_Set, client_Get.
  rewrite Hm, Hb, Hup, (substitute_nonempty buf Hl). simpl.
  rewrite lookup_insert_eq, (is_placeholder_false buf Hl Hp), Hu.
  split; reflexivity.
Qed.

Lemma redisCache_Set_Get_roundtrip_witness :
  (redisCache_Set (sampleCache "app") emptyRedis "u:1" (ptr "A") Hour).1 = Nil
  ∧ redisCache_Get (sampleCache "app")
      (redisCache_Set (sampleCache "app") emptyRedis "u:1" (ptr "A") Hour).2
      "u:1" (ptr "")
    = (Nil, "A").
Proof.
  apply (redisCache_Set_Get_roundtrip (sampleCache "app") emptyRedis "u:1"
           (ptr "A") (ptr "") Hour "A" "A");
    try discriminate; reflexivity.
Defined.

Lemma ristretto_SetWithTTL_accepts (c : ristretto) (key : string)
  (value : item) (cost ttl : Z) :
  0 <= ttl → is_Some (store c !! key) ∨ setBufRoom c ≠ 0%nat →
  (ristretto_SetWithTTL c key value cost ttl).1 = true.
Proof.
  intros Httl Hroom. unfold ristretto_SetWithTTL.
  destruct (Z.ltb_spec ttl 0); [lia|].
  destruct (store c !! key) as [old|] eqn:Hl; [reflexivity|].
  destruct Hroom as [[x Hx]|Hroom]; [discriminate|].
  destruct (setBufRoom c); [congruence|reflexivity].
Qed.

(** An entry without a time to live, or one whose time to live has not
    run out, is still there after [d]. *)
Lemma age_alive (d : Z) (v : item) (ttl : Z) :
  0 <= ttl → ttl = 0 ∨ d < ttl → ∃ rest, age d (v, ttl) = Some (v, rest).
Proof.
  intros Httl Hd. unfold age. cbn [fst snd].
  destruct (Z.eqb_spec ttl 0) as [->|Hne]; [eauto|].
  destruct (Z.ltb_spec d ttl); [eauto|lia].
Qed.

Lemma ristretto_elapse_Get (d : Z) (c : ristretto) (k : string) (v : item)
  (ttl : Z) :
  store c !! k = Some (v, ttl) → 0 <= ttl → ttl = 0 ∨ d < ttl →
  ristretto_Get (ristretto_elapse d c) k = Some v.
Proof.
  intros Hl Httl Hd. unfold ristretto_Get, ristretto_elapse. cbn [store].
  rewrite lookup_omap, Hl. cbn [mbind option_bind].
  destruct (age_alive d v ttl Httl Hd) as [rest ->]. reflexivity.
Qed.

(** In-process backend, round trip, with nothing else queued.  [Set]
    returns nil as soon as the engine takes the write into its buffer,
    whatever the policy does with it afterwards, and has waited for the
    buffer to be applied.  If the key was stored already or the policy
    admits the new item, a [Get] within the time to live decodes the
    encoded bytes into the target; on an engine whose policy drops every
    new item (its capacity is below the cost of any item), the [Get]
    misses although [Set] returned nil. *)
Theorem memoryCache_Set_Get_roundtrip {T : Type} (m : cacheObj T)
  (cli : ristretto) (key cacheKey : string) (val target : Value T)
  (expiration d : Z) (buf : bytes) (t : T) :
  BuildCacheKey (c_KeyPrefix m) key = Ok cacheKey →
  setBuf cli = [] → 0 <= expiration →
  is_Some (store cli !! cacheKey) ∨ setBufRoom cli ≠ 0%nat →
  Marshal (c_encoding m) val = Ok buf →
  String.length buf ≠ 0%nat → buf ≠ NotFoundPlaceholderBytes →
  Unmarshal (c_encoding m) buf target = (Nil, t) →
  (memoryCache_Set m cli key val expiration).1 = Nil
  ∧ setBuf (memoryCache_Set m cli key val expiration).2 = []
  ∧ (is_Some (store cli !! cacheKey)
     ∨ is_Some (policy cli (store cli) cacheKey) →
     0 <= d → expiration = 0 ∨ d < expiration →
     memoryCache_Get m
       (ristretto_elapse d (memoryCache_Set m cli key val expiration).2)
       key target
     = (Nil, t))
  ∧ (store cli !! cacheKey = None → (∀ st k, policy cli st k = None) →
     memoryCache_Get m (memoryCache_Set m cli key val expiration).2 key target
     = (Error CacheNotFound, v_content target)).
Proof.
  intros Hb Hempty Hexp Hroom Hm Hl Hp Hu.
  pose proof (ristretto_SetWithTTL_accepts cli cacheKey (ItemBytes buf) 0
                expiration Hexp Hroom) as Hacc.
  unfold memoryCache_Set, memoryCache_Get.
  rewrite Hm, Hb, (substitute_nonempty buf Hl).
  destruct (ristretto_SetWithTTL cli cacheKey (ItemBytes buf) 0 expiration)
    as [ok cli'] eqn:Hset.
  simpl in Hacc. subst ok. cbn [negb fst snd].
  destruct (ristretto_SetWithTTL_Wait cli cli' cacheKey _ 0 expiration Hempty Hset)
    as (Hupd & Hnew & Hrej & Hbuf & _ & _).
  split; [reflexivity|]. split; [exact Hbuf|]. split.
  - intros Hkeep Hd Hlive.
    assert (Hst : store (ristretto_Wait cli') !! cacheKey
                  = Some (ItemBytes buf, expiration)).
    { destruct (store cli !! cacheKey) as [old|] eqn:Hold.
      - rewrite Hupd by eauto. apply lookup_insert_eq.
      - destruct Hkeep as [[x Hx]|[victims Hv]]; [discriminate|].
        rewrite (Hnew victims eq_refl Hv). apply lookup_insert_eq. }
    rewrite (ristretto_elapse_Get d _ cacheKey _ expiration Hst Hexp Hlive).
    rewrite (is_placeholder_false buf Hl Hp), Hu. reflexivity.
  - intros Hnone Hdrop. unfold ristretto_Get.
    rewrite (Hrej Hnone (Hdrop _ _)), Hnone. reflexivity.
Qed.

Lemma memoryCache_Set_Get_roundtrip_witness :
  (memoryCache_Set (sampleCache "app") (ristretto_new 8) "u:1" (ptr "A") Hour).1
  = Nil
  ∧ memoryCache_Get (sampleCache "app")
      (ristretto_elapse Minute
         (memoryCache_Set (sampleCache "app") (ristretto_new 8) "u:1" (ptr "A")
            Hour).2) "u:1" (ptr "")
    = (Nil, "A")
  ∧ (memoryCache_Set (sampleCache "app") tinyEngine "u:1" (ptr "A") Hour).1 = Nil
  ∧ memoryCache_Get (sampleCache "app")
      (memoryCache_Set (sampleCache "app") tinyEngine "u:1" (ptr "A") Hour).2
      "u:1" (ptr "old")
    = (Error CacheNotFound, "old").
Proof.
  destruct (memoryCache_Set_Get_roundtrip (sampleCache "app") (ristretto_new 8)
              "u:1" "app:u:1" (ptr "A") (ptr "") Hour Minute "A" "A")
    as (Hnil & _ & Hget & _);
    try discriminate; try reflexivity; [right; discriminate|].
  destruct (memoryCache_Set_Get_roundtrip (sampleCache "app") tinyEngine
              "u:1" "app:u:1" (ptr "A") (ptr "old") Hour 0 "A" "A")
    as (Hnil' & _ & _ & Hmiss);
    try discriminate; try reflexivity; [right; discriminate|].
  split; [exact Hnil|]. split.
  - apply Hget.
    + right. simpl. eauto.
    + discriminate.
    + right. reflexivity.
  - split; [exact Hnil'|]. apply Hmiss; [reflexivity|]. intros st k. reflexivity.
Defined.

(** A key the backend does not hold: [Get] returns [CacheNotFound]
    itself, not wrapped in a message, and leaves the target as it was, on
    the remote backends and on the in-process one; an unreachable remote
    store makes [Get] return the client's error, also not wrapped. *)
Theorem Get_absent_key_is_CacheNotFound {T : Type} (c : cacheObj T)
  (key cacheKey : string) (val : Value T) :
  BuildCacheKey (c_KeyPrefix c) key = Ok cacheKey →
  (∀ cli : redisClient, down cli = None → rdb cli !! cacheKey = None →
     redisCache_Get c cli key val = (Error CacheNotFound, v_content val))
  ∧ (∀ (cli : redisClient) (e : error), down cli = Some e →
     redisCache_Get c cli key val = (Error e, v_content val))
  ∧ (∀ cli : ristretto, store cli !! cacheKey = None →
     memoryCache_Get c cli key val = (Error CacheNotFound, v_content val)).
Proof.
  intros Hb. split; [|split].
  - intros cli Hup Hl. unfold redisCache_Get, client_Get.
    rewrite Hb, Hup, Hl. reflexivity.
  - intros cli e Hd. unfold redisCache_Get, client_Get.
    rewrite Hb, Hd. reflexivity.
  - intros cli Hl. unfold memoryCache_Get, ristretto_Get.
    rewrite Hb, Hl. reflexivity.
Qed.

Lemma Get_absent_key_is_CacheNotFound_witness :
  redisCache_Get (sampleCache "app") emptyRedis "missing" (ptr "old")
  = (Error CacheNotFound, "old")
  ∧ memoryCache_Get (sampleCache "app") (ristretto_new 8) "missing" (ptr "old")
    = (Error CacheNotFound, "old").
Proof.
  destruct (Get_absent_key_is_CacheNotFound (sampleCache "app") "missing"
              "app:missing" (ptr "old") eq_refl) as (Hr & _ & Hm).
  split.
  - apply Hr; reflexivity.
  - apply Hm. reflexivity.
Defined.

(** The empty key: [Set], [Get] and [SetCacheWithNotFound] return an
    error on every backend, write nothing and leave the target as it was. *)
Theorem empty_key_is_refused {T : Type} (c : cacheObj T) (val : Value T)
  (expiration : Z) (rcli : redisClient) (mcli : ristretto) :
  (is_error (redisCache_Set c rcli "" val expiration).1
   || is_panic (redisCache_Set c rcli "" val expiration).1 = true
   ∧ (redisCache_Set c rcli "" val expiration).2 = rcli)
  ∧ (is_error (memoryCache_Set c mcli "" val expiration).1
     || is_panic (memoryCache_Set c mcli "" val expiration).1 = true
     ∧ (memoryCache_Set c mcli "" val expiration).2 = mcli)
  ∧ redisCache_Get c rcli "" val
    = (Error (Errorf "redis.Get: build key" ErrEmptyKey), v_content val)
  ∧ memoryCache_Get c mcli "" val
    = (Error (Errorf "memory.Get: build key" ErrEmptyKey), v_content val)
  ∧ redisCache_SetCacheWithNotFound c rcli ""
    = (Error (Errorf "redis.SetCacheWithNotFound: build key" ErrEmptyKey), rcli)
  ∧ memoryCache_SetCacheWithNotFound c mcli ""
    = (Error (Errorf "memory.SetCacheWithNotFound: build key" ErrEmptyKey), mcli).
Proof.
  repeat split; try reflexivity;
    unfold redisCache_Set, memoryCache_Set;
    destruct (Marshal (c_encoding c) val); reflexivity.
Qed.

(** A value whose encoding is the placeholder byte sequence itself is
    stored as it is, and reads back as [ErrPlaceholder]: it cannot be told
    from a negative-cache entry. *)
Theorem redisCache_Set_placeholder_bytes_unreadable {T : Type} (c : cacheObj T)
  (cli : redisClient) (key : string) (val target : Value T) (expiration : Z) :
  key ≠ "" → down cli = None →
  Marshal (c_encoding c) val = Ok NotFoundPlaceholderBytes →
  (redisCache_Set c cli key val expiration).1 = Nil
  ∧ redisCache_Get c (redisCache_Set c cli key val expiration).2 key target
    = (Error ErrPlaceholder, v_content target).
Proof.
  intros Hk Hup Hm.
  destruct (BuildCacheKey_Ok (c_KeyPrefix c) key Hk) as [cacheKey Hb].
  unfold redisCache_Set, redisCache_Get, client_Set, client_Get.
  rewrite Hm, Hb, Hup. simpl. rewrite lookup_insert_eq. split; reflexivity.
Qed.

Lemma redisCache_Set_placeholder_bytes_unreadable_witness :
  (redisCache_Set (sampleCache "app") emptyRedis "u:1" (ptr "*") Hour).1 = Nil
  ∧ redisCache_Get (sampleCache "app")
      (redisCache_Set (sampleCache "app") emptyRedis "u:1" (ptr "*") Hour).2
      "u:1" (ptr "old")
    = (Error ErrPlaceholder, "old").
Proof.
  apply (redisCache_Set_placeholder_bytes_unreadable (sampleCache "app")
           emptyRedis "u:1" (ptr "*") (ptr "old") Hour);
    try discriminate; reflexivity.
Defined.

(* ===================================================================== *)
(** ** Del *)
(* ===================================================================== *)

Lemma fold_delete_lookup (keys : list string) (db : gmap string (bytes * Z))
  (k : string) :
  fold_left (λ d key, delete key d) keys db !! k
  = if decide (k ∈ keys) then None else db !! k.
Proof.
  revert db. induction keys as [|key rest IH]; intros db; simpl.
  - destruct (decide (k ∈ [])) as [H|_]; [inversion H|reflexivity].
  - rewrite IH. destruct (decide (k ∈ rest)) as [Hin|Hni].
    + rewrite decide_True by (right; exact Hin). reflexivity.
    + destruct (decide (k = key)) as [->|Hne].
      * rewrite decide_True by left. apply lookup_delete_eq.
      * rewrite decide_False.
        -- apply lookup_delete_ne. congruence.
        -- intros Hc. apply elem_of_cons in Hc as [?|?]; contradiction.
Qed.

(** The remote [Del] on a reachable store: every requested key that is
    not empty is gone afterwards, and an entry whose key is neither a
    physical key of the request nor the empty string is untouched. *)
Theorem redisCache_Del_removes_requested {T : Type} (c : cacheObj T)
  (cli : redisClient) (keys : list string) :
  down cli = None →
  (redisCache_Del c cli keys).1 = Nil
  ∧ (∀ key cacheKey, key ∈ keys →
       BuildCacheKey (c_KeyPrefix c) key = Ok cacheKey →
       rdb (redisCache_Del c cli keys).2 !! cacheKey = None)
  ∧ (∀ k, k ≠ "" →
       (∀ key, key ∈ keys → BuildCacheKey (c_KeyPrefix c) key ≠ Ok k) →
       rdb (redisCache_Del c cli keys).2 !! k = rdb cli !! k).
Proof.
  intros Hup. unfold redisCache_Del.
  destruct keys as [|key0 rest] eqn:Hkeys.
  { simpl. split; [reflexivity|]. split; [|reflexivity].
    intros key cacheKey Hin. inversion Hin. }
  rewrite <- Hkeys. replace (length keys =? 0)%nat with false
    by (rewrite Hkeys; reflexivity).
  unfold client_Del. rewrite Hup, Del_args_spec. simpl.
  split; [reflexivity|]. split.
  - intros key cacheKey Hin Hb. rewrite fold_delete_lookup.
    rewrite decide_True; [reflexivity|].
    apply list_elem_of_fmap. exists key. split; [|exact Hin].
    unfold Del_slot. rewrite Hb. reflexivity.
  - intros k Hne Hother. rewrite fold_delete_lookup.
    rewrite decide_False; [reflexivity|].
    intros Hin. apply list_elem_of_fmap in Hin as [key [Heq Hin]].
    unfold Del_slot in Heq.
    destruct (BuildCacheKey (c_KeyPrefix c) key) as [ck|e|w] eqn:Hb;
      [|congruence|congruence].
    apply (Hother key Hin). congruence.
Qed.

Lemma redisCache_Del_removes_requested_witness :
  (redisCache_Del (sampleCache "app") redisWithEmptyKey ["a"]).1 = Nil
  ∧ rdb (redisCache_Del (sampleCache "app") redisWithEmptyKey ["a"]).2
      !! "app:a" = None.
Proof.
  destruct (redisCache_Del_removes_requested (sampleCache "app")
              redisWithEmptyKey ["a"] eq_refl) as (H1 & H2 & _).
  split; [exact H1|]. apply (H2 "a"); [left|reflexivity].
Defined.

(** The in-process [Del] removes its first key at once: the [Get] that
    follows misses, whatever was stored or still queued for it. *)
Theorem memoryCache_Del_then_Get_misses {T : Type} (m : cacheObj T)
  (cli : ristretto) (key : string) (rest : list string) (val : Value T) :
  key ≠ "" →
  (memoryCache_Del m cli (key :: rest)).1 = Nil
  ∧ memoryCache_Get m (memoryCache_Del m cli (key :: rest)).2 key val
    = (Error CacheNotFound, v_content val).
Proof.
  intros Hk. destruct (BuildCacheKey_Ok (c_KeyPrefix m) key Hk) as [cacheKey Hb].
  unfold memoryCache_Del, memoryCache_Get, ristretto_Get, ristretto_Del.
  rewrite Hb. simpl. rewrite lookup_delete_eq. split; reflexivity.
Qed.

Lemma memoryCache_Del_then_Get_misses_witness :
  memoryCache_Get (sampleCache "app")
    (memoryCache_Del (sampleCache "app")
       (memoryCache_Set (sampleCache "app") (ristretto_new 8) "u:1" (ptr "A")
          Hour).2 ["u:1"]).2 "u:1" (ptr "old")
  = (Error CacheNotFound, "old").
Proof.
  apply (memoryCache_Del_then_Get_misses (sampleCache "app")
           (memoryCache_Set (sampleCache "app") (ristretto_new 8) "u:1"
              (ptr "A") Hour).2 "u:1" [] (ptr "old")).
  discriminate.
Defined.

(** Empty input: [Del] of no key, [MultiSet] of an empty map and
    [MultiGet] of no key return nil and change nothing, on every backend
    and whatever the state of the client, reachable or not. *)
Theorem empty_batch_is_noop {T : Type} (c : cacheObj T) (rcli : redisClient)
  (mcli : ristretto) (expiration : Z) (value : gmap string (Value T)) :
  redisCache_Del c rcli [] = (Nil, rcli)
  ∧ memoryCache_Del c mcli [] = (Nil, mcli)
  ∧ redisCache_MultiSet c rcli [] expiration = (Nil, rcli)
  ∧ memoryCache_MultiSet c mcli [] expiration = (Nil, mcli)
  ∧ redisCache_MultiGet c rcli [] value = (Nil, value)
  ∧ memoryCache_MultiGet c mcli [] value = (Nil, value).
Proof. repeat split. Qed.

(* ===================================================================== *)
(** ** MultiGet *)
(* ===================================================================== *)

Lemma MultiGet_keys_empty_key (keyPrefix : string) (keys : list string) :
  "" ∈ keys →
  MultiGet_keys keyPrefix keys
  = Err (Errorf "redis.MultiGet: build key" ErrEmptyKey).
Proof.
  induction keys as [|key rest IH]; intros Hin; [inversion Hin|].
  simpl. destruct (String.eqb_spec key "") as [->|Hne].
  - reflexivity.
  - apply elem_of_cons in Hin as [Heq|Hin]; [congruence|].
    destruct (BuildCacheKey_Ok keyPrefix key Hne) as [ck Hb].
    rewrite Hb, (IH Hin). reflexivity.
Qed.

Lemma MultiGet_keys_Ok (keyPrefix : string) (keys : list string) :
  "" ∉ keys →
  ∃ cacheKeys, MultiGet_keys keyPrefix keys = Ok cacheKeys
    ∧ Forall2 (λ key ck, BuildCacheKey keyPrefix key = Ok ck) keys cacheKeys.
Proof.
  induction keys as [|key rest IH]; intros Hni.
  - exists []. split; [reflexivity|constructor].
  - apply not_elem_of_cons in Hni as [Hne Hni].
    destruct (IH Hni) as (cks & Hok & Hall).
    destruct (BuildCacheKey_Ok keyPrefix key) as [ck Hb]; [congruence|].
    exists (ck :: cks). simpl. rewrite Hb, Hok.
    split; [reflexivity|constructor; assumption].
Qed.

(** The remote [MultiGet] resolves every key before it asks the store: one
    empty key among the requested ones fails the whole call, the result
    map is left as it was, and this holds whatever the store holds and
    whether or not it can be reached. *)
Theorem redisCache_MultiGet_empty_key_aborts {T : Type} (c : cacheObj T)
  (cli : redisClient) (keys : list string) (value : gmap string (Value T)) :
  "" ∈ keys →
  redisCache_MultiGet c cli keys value
  = (Error (Errorf "redis.MultiGet: build key" ErrEmptyKey), value).
Proof.
  intros Hin. unfold redisCache_MultiGet.
  destruct keys as [|k rest] eqn:Hk; [inversion Hin|].
  rewrite <- Hk in *. replace (length keys =? 0)%nat with false
    by (rewrite Hk; reflexivity).
  rewrite (MultiGet_keys_empty_key _ _ Hin). reflexivity.
Qed.

Lemma redisCache_MultiGet_empty_key_aborts_witness :
  redisCache_MultiGet (sampleCache "app")
    (redisCache_Set (sampleCache "app") emptyRedis "u:1" (ptr "A") Hour).2
    ["u:1"; ""] ∅
  = (Error (Errorf "redis.MultiGet: build key" ErrEmptyKey), ∅).
Proof.
  apply (redisCache_MultiGet_empty_key_aborts (sampleCache "app")).
  right. left.
Defined.

(** The in-process [MultiGet] resolves the keys one by one: the empty
    keys are skipped and the call behaves as on the other keys alone. *)
Theorem memoryCache_MultiGet_skips_empty_keys {T : Type} (m : cacheObj T)
  (cli : ristretto) (keys : list string) (value : gmap string (Value T)) :
  memoryCache_MultiGet m cli keys value
  = memoryCache_MultiGet m cli
      (List.filter (λ key, negb (String.eqb key "")) keys) value.
Proof.
  revert value. induction keys as [|key rest IH]; intros value.
  - reflexivity.
  - cbn [List.filter]. destruct (String.eqb_spec key "") as [->|Hne]; simpl.
    + apply IH.
    + destruct (memoryCache_Get m cli key (c_newObject m)) as [[|e|w] t];
        [apply IH|apply IH|reflexivity].
Qed.

Lemma MultiGet_inject_keeps {T : Type} (c : cacheObj T)
  (slots : list (string * option bytes)) (valueMap : gmap string (Value T))
  (k : string) :
  is_Some (valueMap !! k) → is_Some ((MultiGet_inject c slots valueMap).2 !! k).
Proof.
  revert valueMap. induction slots as [|[ck v] rest IH]; intros valueMap Hk.
  - exact Hk.
  - simpl. destruct v as [dataBytes|]; [|apply IH, Hk].
    destruct (is_placeholder dataBytes); [apply IH, Hk|].
    destruct (Unmarshal (c_encoding c) dataBytes (c_newObject c)) as [[|e|w] t].
    + apply IH. rewrite lookup_insert. destruct (decide (ck = k)); [eauto|exact Hk].
    + apply IH, Hk.
    + exact Hk.
Qed.

(** [MultiGet] never clears the caller's map: on every backend, whatever
    the call returns, a key that had an entry before still has one after,
    and a key that is not one the call can assign keeps its entry. *)
Theorem MultiGet_never_clears {T : Type} (c : cacheObj T) (rcli : redisClient)
  (mcli : ristretto) (keys : list string) (value : gmap string (Value T))
  (k : string) :
  (is_Some (value !! k) →
     is_Some ((redisCache_MultiGet c rcli keys value).2 !! k)
     ∧ is_Some ((memoryCache_MultiGet c mcli keys value).2 !! k))
  ∧ (k ∉ keys → (memoryCache_MultiGet c mcli keys value).2 !! k = value !! k)
  ∧ ((∀ key, key ∈ keys → BuildCacheKey (c_KeyPrefix c) key ≠ Ok k) →
     (redisCache_MultiGet c rcli keys value).2 !! k = value !! k).
Proof.
  split; [|split].
  - intros Hk. split.
    + unfold redisCache_MultiGet.
      destruct (length keys =? 0)%nat; [exact Hk|].
      destruct (MultiGet_keys (c_KeyPrefix c) keys) as [cks|e|w]; try exact Hk.
      destruct (client_MGet rcli cks) as [values|e|w]; try exact Hk.
      apply MultiGet_inject_keeps, Hk.
    + revert value Hk. induction keys as [|key rest IH]; intros value Hk.
      * exact Hk.
      * simpl.
        destruct (memoryCache_Get c mcli key (c_newObject c)) as [[|e|w] t].
        -- apply IH. rewrite lookup_insert.
           destruct (decide (key = k)); [eauto|exact Hk].
        -- apply IH, Hk.
        -- exact Hk.
  - apply memoryCache_MultiGet_other.
  - intros Hother. unfold redisCache_MultiGet.
    destruct (length keys =? 0)%nat; [reflexivity|].
    destruct (MultiGet_keys (c_KeyPrefix c) keys) as [cks|e|w] eqn:Hks;
      try reflexivity.
    destruct (client_MGet rcli cks) as [values|e|w]; try reflexivity.
    apply MultiGet_inject_other.
    assert (Hcks : ∀ ck, ck ∈ cks →
              ∃ key, key ∈ keys ∧ BuildCacheKey (c_KeyPrefix c) key = Ok ck).
    { clear -Hks. revert cks Hks.
      induction keys as [|key rest IH]; intros cks Hks ck Hin.
      - simpl in Hks. inversion Hks; subst. inversion Hin.
      - simpl in Hks.
        destruct (BuildCacheKey (c_KeyPrefix c) key) as [ck0|e|w] eqn:Hb;
          try discriminate.
        destruct (MultiGet_keys (c_KeyPrefix c) rest) as [cks0|e|w];
          try discriminate.
        inversion Hks; subst. apply elem_of_cons in Hin as [->|Hin].
        + exists key. split; [left|exact Hb].
        + destruct (IH cks0 eq_refl ck Hin) as (key' & Hin' & Hb').
          exists key'. split; [right; exact Hin'|exact Hb']. }
    intros Hin. apply list_elem_of_fmap in Hin as [[ck v] [Heq Hin]].
    simpl in Heq. subst ck.
    assert (Hk : k ∈ cks).
    { clear -Hin. revert values Hin. induction cks as [|c0 cks IH];
        intros values Hin; [inversion Hin|].
      destruct values as [|v0 values]; [inversion Hin|].
      simpl in Hin. apply elem_of_cons in Hin as [Heq|Hin].
      - inversion Heq; subst. left.
      - right. eapply IH, Hin. }
    destruct (Hcks k Hk) as (key & Hkin & Hb). exact (Hother key Hkin Hb).
Qed.

Lemma MultiGet_never_clears_witness :
  is_Some ((redisCache_MultiGet (sampleCache "app") emptyRedis ["u:1"]
              {["kept" := ptr "x"]}).2 !! "kept")
  ∧ (memoryCache_MultiGet (sampleCache "app") (ristretto_new 8) ["u:1"]
       {["kept" := ptr "x"]}).2 !! "kept" = Some (ptr "x").
Proof.
  destruct (MultiGet_never_clears (sampleCache "app") emptyRedis
              (ristretto_new 8) ["u:1"] {["kept" := ptr "x"]} "kept")
    as (H1 & H2 & _).
  split.
  - apply H1. rewrite lookup_singleton_eq. eauto.
  - rewrite H2.
    + apply lookup_singleton_eq.
    + intros Hin. apply list_elem_of_singleton in Hin. discriminate.
Defined.

Lemma MultiGet_inject_negative {T : Type} (c : cacheObj T)
  (slots : list (string * option bytes)) (valueMap : gmap string (Value T)) :
  Forall (λ s, match s.2 with
               | None => True
               | Some d => is_placeholder d = true
               end) slots →
  MultiGet_inject c slots valueMap = (Nil, valueMap).
Proof.
  intros H. induction H as [|[ck v] rest Hv _ IH]; [reflexivity|].
  simpl in *. destruct v as [d|]; [rewrite Hv|]; exact IH.
Qed.

(** Negative-cache entries contribute nothing to a remote [MultiGet]: when
    each requested key is either absent from the store or holds the
    placeholder (or empty bytes), the call returns nil and the result map
    is exactly what the caller passed in. *)
Theorem redisCache_MultiGet_ignores_negative_entries {T : Type}
  (c : cacheObj T) (cli : redisClient) (keys : list string)
  (value : gmap string (Value T)) :
  down cli = None → "" ∉ keys →
  (∀ key cacheKey d ttl, key ∈ keys →
     BuildCacheKey (c_KeyPrefix c) key = Ok cacheKey →
     rdb cli !! cacheKey = Some (d, ttl) → is_placeholder d = true) →
  redisCache_MultiGet c cli keys value = (Nil, value).
Proof.
  intros Hup Hne Hneg. unfold redisCache_MultiGet.
  destruct (length keys =? 0)%nat; [reflexivity|].
  destruct (MultiGet_keys_Ok (c_KeyPrefix c) keys Hne) as (cks & Hok & Hall).
  rewrite Hok. unfold client_MGet. rewrite Hup.
  apply MultiGet_inject_negative.
  assert (Hcks : Forall (λ ck, ∃ key, key ∈ keys
                          ∧ BuildCacheKey (c_KeyPrefix c) key = Ok ck) cks).
  { clear -Hall. induction Hall as [|key ck keys cks Hb _ IH]; constructor.
    - exists key. split; [left|exact Hb].
    - eapply Forall_impl; [exact IH|]. intros ck' (key' & Hin & Hb').
      exists key'. split; [right; exact Hin|exact Hb']. }
  clear Hok Hall. induction Hcks as [|ck cks (key & Hin & Hb) _ IH];
    [constructor|].
  simpl. constructor; [|exact IH]. simpl.
  destruct (rdb cli !! ck) as [[d ttl]|] eqn:Hl; simpl; [|exact I].
  exact (Hneg key ck d ttl Hin Hb Hl).
Qed.

Lemma redisCache_MultiGet_ignores_negative_entries_witness :
  redisCache_MultiGet (sampleCache "app")
    (redisCache_SetCacheWithNotFound (sampleCache "app") emptyRedis "u:2").2
    ["u:2"; "u:3"] {["kept" := ptr "x"]}
  = (Nil, {["kept" := ptr "x"]}).
Proof.
  apply (redisCache_MultiGet_ignores_negative_entries (sampleCache "app")).
  - reflexivity.
  - intros Hin. apply elem_of_cons in Hin as [Hin|Hin]; [discriminate|].
    apply list_elem_of_singleton in Hin. discriminate.
  - intros key cacheKey d ttl Hin Hb Hl.
    apply elem_of_cons in Hin as [->|Hin].
    + vm_compute in Hb. injection Hb as <-. vm_compute in Hl.
      injection Hl as <- _. reflexivity.
    + apply list_elem_of_singleton in Hin. subst key.
      vm_compute in Hb. injection Hb as <-. vm_compute in Hl. discriminate.
Defined.

(* ===================================================================== *)
(** ** The remote MultiSet, read back *)
(* ===================================================================== *)

Lemma redisCache_MultiSet_stays_up {T : Type} (c : cacheObj T)
  (cli : redisClient) (valueMap : list (string * Value T)) (expiration : Z) :
  down cli = None → down (redisCache_MultiSet c cli valueMap expiration).2 = None.
Proof.
  intros Hup. unfold redisCache_MultiSet.
  destruct (length valueMap =? 0)%nat; [exact Hup|].
  destruct (MultiSet_pairs c valueMap []) as [paris|e|w]; try exact Hup.
  unfold pipeline_Exec. rewrite Hup.
  destruct (server_cmds (rdb cli) (CmdMSet paris :: MultiSet_expires paris expiration))
    as [[|e|w] db]; reflexivity.
Qed.

(** On a reachable store and with a positive expiration, the remote
    [MultiSet] returns nil as soon as one entry of the map encodes under a
    non-empty key, and the store then returns, under the physical key of
    each such entry, the bytes the entry encoded to; the entries that
    fail to encode do not get in the way. *)
Theorem redisCache_MultiSet_survivors_readable {T : Type} (c : cacheObj T)
  (enc : Encoding T) (cli : redisClient) (valueMap : list (string * Value T))
  (expiration : Z) (key : string) (value : Value T) (cacheKey : string)
  (buf : bytes) :
  c_encoding c = Some enc → down cli = None → 0 < expiration →
  NoDup valueMap.*1 →
  (key, value) ∈ valueMap →
  Marshal (c_encoding c) value = Ok buf →
  BuildCacheKey (c_KeyPrefix c) key = Ok cacheKey →
  (redisCache_MultiSet c cli valueMap expiration).1 = Nil
  ∧ client_Get (redisCache_MultiSet c cli valueMap expiration).2 cacheKey
    = Ok buf.
Proof.
  intros He Hup Hpos Hnd Hin Hm Hb.
  assert (Hs : survivors c valueMap ≠ []).
  { intros Hnil.
    assert (Hel : (cacheKey, buf) ∈ survivors c valueMap).
    { apply survivors_elem. exists key, value. auto. }
    rewrite Hnil in Hel. inversion Hel. }
  destruct (redisCache_MultiSet_writes_survivors c enc cli valueMap expiration
              He Hup Hpos Hnd Hs) as [Hnil Hall].
  split; [exact Hnil|].
  unfold client_Get.
  rewrite (redisCache_MultiSet_stays_up c cli valueMap expiration Hup).
  rewrite (Hall key value cacheKey buf Hin Hm Hb). reflexivity.
Qed.

Lemma redisCache_MultiSet_survivors_readable_witness :
  (redisCache_MultiSet (sampleCache "app") emptyRedis
     [("a", ptr "poison"); ("b", ptr "v")] Hour).1 = Nil
  ∧ client_Get (redisCache_MultiSet (sampleCache "app") emptyRedis
                  [("a", ptr "poison"); ("b", ptr "v")] Hour).2 "app:b"
    = Ok "v".
Proof.
  apply (redisCache_MultiSet_survivors_readable (sampleCache "app") sampleCodec
           emptyRedis [("a", ptr "poison"); ("b", ptr "v")] Hour "b" (ptr "v")
           "app:b" "v"); try reflexivity.
  - simpl. repeat constructor; intros Hin.
    + apply list_elem_of_singleton in Hin. discriminate.
    + inversion Hin.
  - right. left.
Defined.

(* ===================================================================== *)
(** ** Provider construction, continued *)
(* ===================================================================== *)

Lemma newMemoryProvider_no_error {T : Type} (config : Config)
  (encoding : option (Encoding T)) (newObject : Value T) (err : error) :
  newMemoryProvider config encoding newObject ≠ Err err.
Proof.
  unfold newMemoryProvider, InitMemory.
  destruct (Memory config) as [mc|]; simpl;
    repeat match goal with |- context [Z.eqb ?a ?b] => destruct (Z.eqb a b) end;
    simpl; discriminate.
Qed.

(** [NewProvider] returns an error in these cases and no other: a nil
    configuration; type redis without a Redis block; type redis_cluster
    without a cluster block or with an empty address list; a type that is
    none of the three.  A memory configuration is never an error. *)
Theorem NewProvider_error_iff {T : Type} (config : option Config)
  (encoding : option (Encoding T)) (newObject : Value T) :
  (∃ err, NewProvider config encoding newObject = Err err) ↔
  match config with
  | None => True
  | Some cfg =>
      (Type_ cfg = RedisCache ∧ Redis cfg = None)
      ∨ (Type_ cfg = RedisClusterCache
         ∧ (RedisCluster cfg = None
            ∨ ∃ rc, RedisCluster cfg = Some rc ∧ RedisClusterConfig.Addrs rc = []))
      ∨ (Type_ cfg ≠ MemoryCache ∧ Type_ cfg ≠ RedisCache
         ∧ Type_ cfg ≠ RedisClusterCache)
  end.
Proof.
  destruct config as [cfg|]; simpl; [|split; eauto].
  destruct (String.eqb_spec (Type_ cfg) MemoryCache) as [Hm|Hm].
  { split.
    - intros [err H]. exfalso. exact (newMemoryProvider_no_error _ _ _ _ H).
    - rewrite Hm. intros [[H _]|[[H _]|(H & _)]]; try discriminate.
      contradiction H; reflexivity. }
  destruct (String.eqb_spec (Type_ cfg) RedisCache) as [Hr|Hr].
  { unfold newRedisProvider. rewrite Hr.
    destruct (Redis cfg) as [rc|]; split.
    - intros [err H]. discriminate.
    - intros [[_ H]|[[H _]|(_ & H & _)]]; try discriminate.
      contradiction H; reflexivity.
    - intros _. left. auto.
    - intros _. eauto. }
  destruct (String.eqb_spec (Type_ cfg) RedisClusterCache) as [Hc|Hc].
  { unfold newRedisClusterProvider. rewrite Hc.
    destruct (RedisCluster cfg) as [rc|]; [|split; [intros _; right; left; auto|eauto]].
    destruct (RedisClusterConfig.Addrs rc) as [|a rest] eqn:Ha; simpl; split.
    - intros _. right. left. split; [reflexivity|]. right. eauto.
    - eauto.
    - intros [err H]. discriminate.
    - intros [[H _]|[[_ [H|(rc' & H & Ha')]]|(_ & _ & H)]]; try discriminate.
      + injection H as <-. congruence.
      + contradiction H; reflexivity. }
  split; [intros _; right; right; auto|eauto].
Qed.

(** A memory configuration without a memory block is completed with the
    default tunables (10M counters, 1 GiB, 64 buffer items) and gives a
    provider.  A block that is present is never completed: a zero in it
    is passed on and the constructor panics; tunables between 1 and the
    defaults give a provider; and a provider that is returned was built
    from the three tunables of the block as they are.  The cache of the
    provider has the key prefix and expire time of the configuration. *)
Theorem newMemoryProvider_tunables {T : Type} (config : Config)
  (encoding : option (Encoding T)) (newObject : Value T) :
  (Memory config = None →
     newMemoryProvider config encoding newObject
     = Ok (memoryProvider
             (mkCache (KeyPrefix config) encoding (cfg_DefaultExpireTime config)
                newObject)
             (Some (mkConn (ristrettoConfig (MemoryConfig.mk 10000000 1073741824 64))
                      false None))))
  ∧ (∀ mc, Memory config = Some mc →
       MemoryConfig.NumCounters mc = 0 ∨ MemoryConfig.MaxCost mc = 0
       ∨ MemoryConfig.BufferItems mc = 0 →
       newMemoryProvider config encoding newObject = Panic "ristretto.NewCache")
  ∧ (∀ mc, Memory config = Some mc →
       0 < MemoryConfig.NumCounters mc <= 10000000 →
       0 < MemoryConfig.MaxCost mc <= 1073741824 →
       0 < MemoryConfig.BufferItems mc <= 64 →
       newMemoryProvider config encoding newObject
       = Ok (memoryProvider
               (mkCache (KeyPrefix config) encoding
                  (cfg_DefaultExpireTime config) newObject)
               (Some (mkConn (ristrettoConfig mc) false None))))
  ∧ (∀ mc p, Memory config = Some mc →
       newMemoryProvider config encoding newObject = Ok p →
       p = memoryProvider
             (mkCache (KeyPrefix config) encoding
                (cfg_DefaultExpireTime config) newObject)
             (Some (mkConn (ristrettoConfig mc) false None))).
Proof.
  split; [|split; [|split]].
  - intros H. unfold newMemoryProvider. rewrite H. reflexivity.
  - intros mc H Hzero. unfold newMemoryProvider, InitMemory. rewrite H.
    destruct (Z.eqb_spec (MemoryConfig.NumCounters mc) 0); [reflexivity|].
    destruct (Z.eqb_spec (MemoryConfig.MaxCost mc) 0); [reflexivity|].
    destruct (Z.eqb_spec (MemoryConfig.BufferItems mc) 0); [reflexivity|].
    destruct Hzero as [?|[?|?]]; contradiction.
  - intros mc H H1 H2 H3. unfold newMemoryProvider, InitMemory. rewrite H.
    destruct (Z.eqb_spec (MemoryConfig.NumCounters mc) 0); [lia|].
    destruct (Z.eqb_spec (MemoryConfig.MaxCost mc) 0); [lia|].
    destruct (Z.eqb_spec (MemoryConfig.BufferItems mc) 0); [lia|].
    reflexivity.
  - intros mc p H. unfold newMemoryProvider, InitMemory. rewrite H.
    destruct ((MemoryConfig.NumCounters mc =? 0) || (MemoryConfig.MaxCost mc =? 0)
              || (MemoryConfig.BufferItems mc =? 0)); [discriminate|].
    intros Hp. injection Hp as <-. reflexivity.
Qed.

Lemma newMemoryProvider_tunables_witness :
  NewProvider (Some (mkConfig MemoryCache "app" Hour
                       (Some (MemoryConfig.mk 1000 1048576 64)) None None))
    (Some sampleCodec) (ptr "")
  = Ok (memoryProvider (mkCache "app" (Some sampleCodec) Hour (ptr ""))
          (Some (mkConn (ristrettoConfig (MemoryConfig.mk 1000 1048576 64))
                   false None)))
  ∧ NewProvider (Some (mkConfig MemoryCache "app" Hour
                         (Some (MemoryConfig.mk 0 0 0)) None None))
      (Some sampleCodec) (ptr "")
    = Panic "ristretto.NewCache".
Proof.
  destruct (newMemoryProvider_tunables
              (mkConfig MemoryCache "app" Hour
                 (Some (MemoryConfig.mk 1000 1048576 64)) None None)
              (Some sampleCodec) (ptr "")) as (_ & _ & H & _).
  destruct (newMemoryProvider_tunables
              (mkConfig MemoryCache "app" Hour
                 (Some (MemoryConfig.mk 0 0 0)) None None)
              (Some sampleCodec) (ptr "")) as (_ & H0 & _).
  split.
  - apply (H (MemoryConfig.mk 1000 1048576 64)); [reflexivity| | |]; simpl; lia.
  - apply (H0 (MemoryConfig.mk 0 0 0)); [reflexivity|]. left. reflexivity.
Defined.

Lemma or_default_nonzero (x d : Z) : d ≠ 0 → or_default x d ≠ 0.
Proof. intros Hd. unfold or_default. destruct (Z.eqb_spec x 0); assumption. Qed.

Lemma or_default_set (x d : Z) : x ≠ 0 → or_default x d = x.
Proof. intros Hx. unfold or_default. destruct (Z.eqb_spec x 0); [contradiction|reflexivity]. Qed.

(** The options of the single-node client: the pool size, the minimum of
    idle connections, the connection lifetime and the three timeouts are
    never zero, since a zero in the configuration is replaced by 10, 2, one
    hour, 5 s, 3 s and 3 s, and a value that is set is kept, whatever its
    sign; the address, password, database and maximum of idle connections
    are passed on as they are.  With a pool size from 0 to [maxPoolSize]
    in the configuration the provider is returned, and a provider that is
    returned holds the client built from these options. *)
Theorem newRedisProvider_fills_defaults {T : Type} (config : Config)
  (rc : RedisConfig.t) (encoding : option (Encoding T)) (newObject : Value T) :
  Redis config = Some rc →
  ∃ o,
    (0 <= RedisConfig.PoolSize rc <= maxPoolSize →
     newRedisProvider config encoding newObject
     = Ok (redisProvider
             (mkCache (KeyPrefix config) encoding
                (cfg_DefaultExpireTime config) newObject)
             (Some (mkConn (redisOptions o) false None))))
  ∧ (∀ p, newRedisProvider config encoding newObject = Ok p →
       p = redisProvider
             (mkCache (KeyPrefix config) encoding
                (cfg_DefaultExpireTime config) newObject)
             (Some (mkConn (redisOptions o) false None)))
  ∧ RedisConfig.Addr o = RedisConfig.Addr rc
  ∧ RedisConfig.Password o = RedisConfig.Password rc
  ∧ RedisConfig.DB o = RedisConfig.DB rc
  ∧ RedisConfig.MaxIdleConns o = RedisConfig.MaxIdleConns rc
  ∧ (RedisConfig.PoolSize o ≠ 0 ∧ RedisConfig.MinIdleConns o ≠ 0
     ∧ RedisConfig.ConnMaxLifetime o ≠ 0 ∧ RedisConfig.DialTimeout o ≠ 0
     ∧ RedisConfig.ReadTimeout o ≠ 0 ∧ RedisConfig.WriteTimeout o ≠ 0)
  ∧ (RedisConfig.PoolSize rc = 0 → RedisConfig.PoolSize o = 10)
  ∧ (RedisConfig.MinIdleConns rc = 0 → RedisConfig.MinIdleConns o = 2)
  ∧ (RedisConfig.ConnMaxLifetime rc = 0 → RedisConfig.ConnMaxLifetime o = Hour)
  ∧ (RedisConfig.DialTimeout rc = 0 → RedisConfig.DialTimeout o = 5 * Second)
  ∧ (RedisConfig.ReadTimeout rc = 0 → RedisConfig.ReadTimeout o = 3 * Second)
  ∧ (RedisConfig.WriteTimeout rc = 0 → RedisConfig.WriteTimeout o = 3 * Second)
  ∧ (RedisConfig.PoolSize rc ≠ 0 → RedisConfig.PoolSize o = RedisConfig.PoolSize rc)
  ∧ (RedisConfig.MinIdleConns rc ≠ 0 →
     RedisConfig.MinIdleConns o = RedisConfig.MinIdleConns rc)
  ∧ (RedisConfig.ConnMaxLifetime rc ≠ 0 →
     RedisConfig.ConnMaxLifetime o = RedisConfig.ConnMaxLifetime rc)
  ∧ (RedisConfig.DialTimeout rc ≠ 0 →
     RedisConfig.DialTimeout o = RedisConfig.DialTimeout rc)
  ∧ (RedisConfig.ReadTimeout rc ≠ 0 →
     RedisConfig.ReadTimeout o = RedisConfig.ReadTimeout rc)
  ∧ (RedisConfig.WriteTimeout rc ≠ 0 →
     RedisConfig.WriteTimeout o = RedisConfig.WriteTimeout rc).
Proof.
  intros H. unfold newRedisProvider, redis_NewClient. rewrite H.
  eexists. split; [intros _; reflexivity|].
  split; [intros p Hp; injection Hp as <-; reflexivity|]. simpl.
  repeat split; try (apply or_default_nonzero; discriminate);
    try (intros ->; reflexivity); apply or_default_set.
Qed.

Lemma newRedisProvider_fills_defaults_witness :
  newRedisProvider redisNoAddr (Some sampleCodec) (ptr "")
  = Ok (redisProvider (sampleCache "app")
          (Some (mkConn (redisOptions
                           (RedisConfig.mk "" "" 0 10 2 0 Hour (5 * Second)
                              (3 * Second) (3 * Second))) false None))).
Proof.
  destruct (newRedisProvider_fills_defaults redisNoAddr (sampleRedisConfig "")
              (Some sampleCodec) (ptr "") eq_refl)
    as (o & Hok & _ & Ha & Hp & Hd & Hmi & _ & H1 & H2 & H3 & H4 & H5 & H6 & _).
  rewrite Hok by (unfold maxPoolSize; simpl; lia). destruct o; simpl in *.
  rewrite Ha, Hp, Hd, Hmi, (H1 eq_refl), (H2 eq_refl), (H3 eq_refl),
    (H4 eq_refl), (H5 eq_refl), (H6 eq_refl).
  reflexivity.
Defined.

(** The three default configurations are accepted as they are: the
    provider is built from exactly the tunables they carry, with an empty
    key prefix and the 24 h default expire time; the cluster one is
    refused exactly when it is given no address. *)
Theorem Default_configs_build_providers {T : Type}
  (encoding : option (Encoding T)) (newObject : Value T) (addr : string)
  (addrs : list string) :
  NewProvider (Some DefaultConfig) encoding newObject
  = Ok (memoryProvider (mkCache "" encoding DefaultExpireTime newObject)
          (Some (mkConn (ristrettoConfig defaultMemoryConfig) false None)))
  ∧ NewProvider (Some (DefaultRedisConfig addr)) encoding newObject
    = Ok (redisProvider (mkCache "" encoding DefaultExpireTime newObject)
            (Some (mkConn (redisOptions
                             (RedisConfig.mk addr "" 0 10 2 0 Hour (5 * Second)
                                (3 * Second) (3 * Second))) false None)))
  ∧ NewProvider (Some (DefaultRedisClusterConfig addrs)) encoding newObject
    = match addrs with
      | [] => Err (ErrNew "redis cluster address list is empty")
      | _ =>
          Ok (redisClusterProvider
                (mkCache "" encoding DefaultExpireTime newObject)
                (Some (mkConn (redisClusterOptions
                                 (RedisClusterConfig.mk addrs "" 10 2 0 Hour
                                    (5 * Second) (3 * Second) (3 * Second)))
                         false None)))
      end.
Proof.
  split; [reflexivity|]. split; [reflexivity|].
  destruct addrs; reflexivity.
Qed.

(* ===================================================================== *)
(** ** Manager, continued *)
(* ===================================================================== *)

(** Registering a provider makes it, and its cache, the one found under
    that name, replacing any provider registered there before; the other
    names are not affected, and a new manager knows no name. *)
Theorem Manager_AddProvider_lookup {T : Type} (m : Manager T) (name : string)
  (provider : Provider T) :
  Manager_GetProvider (Manager_AddProvider m name provider) name = Some provider
  ∧ Manager_GetCache (Manager_AddProvider m name provider) name
    = Some (Provider_GetCache provider)
  ∧ (∀ other, other ≠ name →
       Manager_GetProvider (Manager_AddProvider m name provider) other
       = Manager_GetProvider m other)
  ∧ Manager_GetProvider (@NewManager T) name = None
  ∧ Manager_GetCache (@NewManager T) name = None.
Proof.
  unfold Manager_GetProvider, Manager_GetCache, Manager_AddProvider, NewManager.
  simpl. rewrite lookup_insert_eq, lookup_empty. repeat split.
  intros other Hne. apply lookup_insert_ne. congruence.
Qed.

Lemma Manager_AddProvider_lookup_witness :
  Manager_GetProvider sampleManager "a" = Some (failingProvider "a" "i/o timeout")
  ∧ Manager_GetProvider sampleManager "b"
    = Some (failingProvider "b" "broken pipe").
Proof.
  destruct (Manager_AddProvider_lookup
              (Manager_AddProvider NewManager "b"
                 (failingProvider "b" "broken pipe"))
              "a" (failingProvider "a" "i/o timeout")) as (Ha & _ & Hother & _).
  split; [exact Ha|].
  unfold sampleManager. rewrite Hother by discriminate.
  apply (Manager_AddProvider_lookup NewManager "b").
Defined.



Lemma ListProviders_fold {T : Type} (order : list (string * Provider T))
  (names : list string) :
  fold_left (λ names np, names ++ [np.1]) order names = names ++ order.*1.
Proof.
  revert names. induction order as [|np rest IH]; intros names; simpl.
  - rewrite app_nil_r. reflexivity.
  - rewrite IH, <- app_assoc. reflexivity.
Qed.

(** [ListProviders] returns every registered name exactly once, and
    nothing else, in whatever order the map is visited. *)
Theorem Manager_ListProviders_names {T : Type} (m : Manager T)
  (order : list (string * Provider T)) :
  range_of m order →
  NoDup (Manager_ListProviders order)
  ∧ length (Manager_ListProviders order) = size (providers m)
  ∧ ∀ name, name ∈ Manager_ListProviders order
            ↔ is_Some (Manager_GetProvider m name).
Proof.
  unfold range_of, Manager_ListProviders, Manager_GetProvider. intros Hperm.
  rewrite ListProviders_fold. simpl. split; [|split].
  - rewrite Hperm. apply NoDup_fst_map_to_list.
  - rewrite length_fmap, Hperm. apply length_map_to_list.
  - intros name. rewrite Hperm. split.
    + intros Hin. apply list_elem_of_fmap in Hin as [[n p] [-> Hin]].
      apply elem_of_map_to_list in Hin. simpl. eauto.
    + intros [p Hp]. apply list_elem_of_fmap. exists (name, p).
      split; [reflexivity|]. apply elem_of_map_to_list. exact Hp.
Qed.

Lemma Manager_ListProviders_names_witness :
  NoDup (Manager_ListProviders sampleOrder)
  ∧ length (Manager_ListProviders sampleOrder) = size (providers sampleManager).
Proof.
  destruct (Manager_ListProviders_names sampleManager sampleOrder
              sampleOrder_range) as (H1 & H2 & _).
  split; assumption.
Defined.

(* ===================================================================== *)
(** ** The codec registry *)
(* ===================================================================== *)

(** A codec with a non-empty name is registered under the lower-cased
    name and found there, replacing what was registered under it before
    (the last registration wins) and leaving every other entry alone.
    Lookup does not lower-case: the codec is found under its own name only
    if that name is already in lower case.  A nil codec or an empty name
    panics. *)
Theorem RegisterCodec_GetCodec {T : Type} (ToLower : string → string)
  (registeredCodecs : gmap string (Codec T)) (codec : Codec T) :
  RegisterCodec ToLower registeredCodecs None
  = Panic "cannot register a nil Codec"
  ∧ (codec_Name codec = "" →
     RegisterCodec ToLower registeredCodecs (Some codec)
     = Panic "cannot register Codec with empty string result for Name()")
  ∧ (codec_Name codec ≠ "" →
     ∃ reg, RegisterCodec ToLower registeredCodecs (Some codec) = Ok reg
       ∧ GetCodec reg (ToLower (codec_Name codec)) = Some codec
       ∧ (∀ other, other ≠ ToLower (codec_Name codec) →
            GetCodec reg other = GetCodec registeredCodecs other)
       ∧ (ToLower (codec_Name codec) ≠ codec_Name codec →
          GetCodec reg (codec_Name codec)
          = GetCodec registeredCodecs (codec_Name codec))).
Proof.
  unfold RegisterCodec, GetCodec. split; [reflexivity|]. split.
  - intros ->. reflexivity.
  - intros Hne. rewrite (eqb_empty_false _ Hne). eexists. split; [reflexivity|].
    split; [apply lookup_insert_eq|]. split.
    + intros other Ho. apply lookup_insert_ne. congruence.
    + intros Hl. apply lookup_insert_ne. exact Hl.
Qed.

Lemma RegisterCodec_GetCodec_witness :
  ∃ reg, RegisterCodec asciiToLower ∅ (Some (sampleCodecNamed "JSON")) = Ok reg
    ∧ GetCodec reg "json" = Some (sampleCodecNamed "JSON")
    ∧ GetCodec reg "JSON" = None.
Proof.
  destruct (RegisterCodec_GetCodec asciiToLower ∅ (sampleCodecNamed "JSON"))
    as (_ & _ & H).
  destruct H as (reg & Hok & Hget & _ & Hcase); [discriminate|].
  exists reg. split; [exact Hok|]. split; [exact Hget|].
  assert (Hd : asciiToLower (codec_Name (sampleCodecNamed "JSON"))
               ≠ codec_Name (sampleCodecNamed "JSON"))
    by (vm_compute; discriminate).
  specialize (Hcase Hd). simpl in Hcase. rewrite Hcase. apply lookup_empty.
Defined.

(* ===================================================================== *)
(** ** Engine options and the global engine *)
(* ===================================================================== *)

Lemma options_apply_snoc (o : options) (opts : list Option) (opt : Option) :
  options_apply o (opts ++ [opt]) = opt (options_apply o opts).
Proof. unfold options_apply. rewrite fold_left_app. reflexivity. Qed.

(** Options are applied in order over the defaults: without options the
    engine is built from 10M counters, 1 GiB and 64 buffer items; an
    option given last decides its tunable and leaves the two others as the
    earlier options made them; and the three options together decide all
    three tunables. *)
Theorem InitMemory_opts_override (opts : list Option) (n c b : Z) :
  InitMemory_opts []
  = Ok (mkConn (ristrettoConfig (MemoryConfig.mk 10000000 1073741824 64))
          false None)
  ∧ options_apply defaultOptions (opts ++ [WithNumCounters n])
    = mkOptions n (maxCost (options_apply defaultOptions opts))
        (bufferItems (options_apply defaultOptions opts))
  ∧ options_apply defaultOptions (opts ++ [WithMaxCost c])
    = mkOptions (numCounters (options_apply defaultOptions opts)) c
        (bufferItems (options_apply defaultOptions opts))
  ∧ options_apply defaultOptions (opts ++ [WithBufferItems b])
    = mkOptions (numCounters (options_apply defaultOptions opts))
        (maxCost (options_apply defaultOptions opts)) b
  ∧ InitMemory_opts [WithNumCounters n; WithMaxCost c; WithBufferItems b]
    = InitMemory (MemoryConfig.mk n c b).
Proof.
  split; [reflexivity|]. rewrite !options_apply_snoc. repeat split.
Qed.

(** The invariant of the package state: the [sync.Once] has fired only if
    a client is installed. *)
Lemma global_step_invariant (calls : list globalCall) (g : globalMemory) :
  (memoryCli g = None → once_done g = false) →
  memoryCli (fold_left global_step calls g) = None →
  once_done (fold_left global_step calls g) = false.
Proof.
  revert g. induction calls as [|call rest IH]; intros g Hinv; [exact Hinv|].
  simpl. apply IH. destruct call as [opts| |]; simpl.
  - unfold InitGlobalMemory. destruct (InitMemory_opts opts); simpl;
      [discriminate|exact Hinv|exact Hinv].
  - unfold GetGlobalMemoryCli. destruct (memoryCli g) as [c|] eqn:Hc; simpl.
    + rewrite Hc. discriminate.
    + rewrite (Hinv eq_refl). simpl. discriminate.
  - unfold CloseGlobalMemory. destruct (memoryCli g) as [c|] eqn:Hc; simpl.
    + discriminate.
    + intros _. exact (Hinv eq_refl).
Qed.

(** Whatever calls to [InitGlobalMemory], [GetGlobalMemoryCli] and
    [CloseGlobalMemory] a program has made since start-up,
    [GetGlobalMemoryCli] returns a client, never nil, and does not panic:
    it returns the installed client when there is one, and creates one
    with the default options otherwise. *)
Theorem GetGlobalMemoryCli_never_nil (calls : list globalCall) :
  ∃ c g',
    GetGlobalMemoryCli (fold_left global_step calls globalMemory_init)
    = Ok (Some c, g')
    ∧ memoryCli g' = Some c.
Proof.
  pose proof (global_step_invariant calls globalMemory_init (λ _, eq_refl))
    as Hinv.
  unfold GetGlobalMemoryCli.
  destruct (memoryCli (fold_left global_step calls globalMemory_init))
    as [c|] eqn:Hc.
  - eauto.
  - rewrite (Hinv eq_refl). simpl. eauto.
Qed.

(** [CloseGlobalMemory] closes the client but keeps it installed: the next
    [GetGlobalMemoryCli] returns that same, closed client and creates no
    new one. *)
Theorem GetGlobalMemoryCli_after_close (g : globalMemory) (c : conn) :
  memoryCli g = Some c →
  (CloseGlobalMemory g).1 = Nil
  ∧ GetGlobalMemoryCli (CloseGlobalMemory g).2
    = Ok (Some (ristretto_Close c), (CloseGlobalMemory g).2)
  ∧ conn_closed (ristretto_Close c) = true.
Proof.
  intros H. unfold CloseGlobalMemory, GetGlobalMemoryCli. rewrite H.
  repeat split.
Qed.

Lemma GetGlobalMemoryCli_after_close_witness :
  ∃ c, GetGlobalMemoryCli
         (fold_left global_step [CallGet; CallClose] globalMemory_init)
       = Ok (Some c, fold_left global_step [CallGet; CallClose] globalMemory_init)
     ∧ conn_closed c = true.
Proof.
  destruct (GetGlobalMemoryCli_after_close
              (global_step globalMemory_init CallGet)
              (mkConn (ristrettoConfig (MemoryConfig.mk 10000000 1073741824 64))
                 false None) eq_refl) as (_ & Hget & Hclosed).
  eexists. split; [exact Hget|exact Hclosed].
Defined.

(* ===================================================================== *)
(** ** The in-process MultiSet on sound entries *)
(* ===================================================================== *)





(* ===================================================================== *)
(** ** The default expire time of a cache object *)
(* ===================================================================== *)










(* ===================================================================== *)
(** ** An unreachable remote store *)
(* ===================================================================== *)

(** When the remote store cannot be reached, every operation that gets as
    far as the client returns an error and changes neither the store nor
    the caller's map.  [Set], [MultiSet], [MultiGet] and [Del] wrap the
    client's error in a message; [Get] and [SetCacheWithNotFound] return
    it as it is. *)
Theorem redisCache_unreachable {T : Type} (c : cacheObj T) (enc : Encoding T)
  (cli : redisClient) (e : error) :
  c_encoding c = Some enc → down cli = Some e →
  (∀ key val expiration buf, key ≠ "" → Marshal (c_encoding c) val = Ok buf →
     redisCache_Set c cli key val expiration
     = (Error (Errorf "redis.Set: client" e), cli))
  ∧ (∀ key val, key ≠ "" →
     redisCache_Get c cli key val = (Error e, v_content val))
  ∧ (∀ key, key ≠ "" → redisCache_SetCacheWithNotFound c cli key = (Error e, cli))
  ∧ (∀ valueMap expiration, valueMap ≠ [] →
     redisCache_MultiSet c cli valueMap expiration
     = (Error (Errorf "redis.MultiSet: exec" e), cli))
  ∧ (∀ keys value, keys ≠ [] → "" ∉ keys →
     redisCache_MultiGet c cli keys value
     = (Error (Errorf "redis.MultiGet: client" e), value))
  ∧ (∀ keys, keys ≠ [] →
     redisCache_Del c cli keys = (Error (Errorf "redis.Del: client" e), cli)).
Proof.
  intros He Hd. repeat split.
  - intros key val expiration buf Hk Hm.
    destruct (BuildCacheKey_Ok (c_KeyPrefix c) key Hk) as [ck Hb].
    unfold redisCache_Set, client_Set. rewrite Hm, Hb, Hd. reflexivity.
  - intros key val Hk.
    destruct (BuildCacheKey_Ok (c_KeyPrefix c) key Hk) as [ck Hb].
    unfold redisCache_Get, client_Get. rewrite Hb, Hd. reflexivity.
  - intros key Hk.
    destruct (BuildCacheKey_Ok (c_KeyPrefix c) key Hk) as [ck Hb].
    unfold redisCache_SetCacheWithNotFound, client_Set. rewrite Hb, Hd.
    reflexivity.
  - intros valueMap expiration Hne. unfold redisCache_MultiSet.
    destruct valueMap as [|kv rest] eqn:Hvm; [contradiction Hne; reflexivity|].
    rewrite <- Hvm. replace (length valueMap =? 0)%nat with false
      by (rewrite Hvm; reflexivity).
    rewrite (MultiSet_pairs_spec c enc valueMap [] He).
    unfold pipeline_Exec. rewrite Hd. reflexivity.
  - intros keys value Hne Hni. unfold redisCache_MultiGet.
    destruct keys as [|k rest] eqn:Hk; [contradiction Hne; reflexivity|].
    rewrite <- Hk in *. replace (length keys =? 0)%nat with false
      by (rewrite Hk; reflexivity).
    destruct (MultiGet_keys_Ok (c_KeyPrefix c) keys Hni) as (cks & Hok & _).
    rewrite Hok. unfold client_MGet. rewrite Hd. reflexivity.
  - intros keys Hne. unfold redisCache_Del.
    destruct keys as [|k rest] eqn:Hk; [contradiction Hne; reflexivity|].
    rewrite <- Hk. replace (length keys =? 0)%nat with false
      by (rewrite Hk; reflexivity).
    unfold client_Del. rewrite Hd. reflexivity.
Qed.

Lemma redisCache_unreachable_witness :
  redisCache_Set (sampleCache "app") unreachableRedis "u:1" (ptr "A") Hour
  = (Error (Errorf "redis.Set: client" (ErrForeign "dial tcp: connection refused")),
     unreachableRedis)
  ∧ redisCache_Get (sampleCache "app") unreachableRedis "u:1" (ptr "old")
    = (Error (ErrForeign "dial tcp: connection refused"), "old").
Proof.
  destruct (redisCache_unreachable (sampleCache "app") sampleCodec
              unreachableRedis (ErrForeign "dial tcp: connection refused")
              eq_refl eq_refl) as (Hset & Hget & _).
  split.
  - apply (Hset "u:1" (ptr "A") Hour "A"); [discriminate|reflexivity].
  - apply Hget. discriminate.
Defined.

(* ===================================================================== *)
(** ** Set followed by MultiGet on a remote backend *)
(* ===================================================================== *)

(** Remote backends: after [Set] of a value whose encoding is neither
    empty nor the placeholder, [MultiGet] of that key enters, under the
    physical key, a new object holding what the codec decodes from the
    stored bytes, and changes no other entry of the caller's map. *)
Theorem redisCache_Set_MultiGet {T : Type} (c : cacheObj T)
  (cli : redisClient) (key cacheKey : string) (val : Value T)
  (expiration : Z) (buf : bytes) (t : T) (value : gmap string (Value T)) :
  BuildCacheKey (c_KeyPrefix c) key = Ok cacheKey → down cli = None →
  Marshal (c_encoding c) val = Ok buf →
  String.length buf ≠ 0%nat → buf ≠ NotFoundPlaceholderBytes →
  Unmarshal (c_encoding c) buf (c_newObject c) = (Nil, t) →
  redisCache_MultiGet c (redisCache_Set c cli key val expiration).2 [key] value
  = (Nil, <[cacheKey := set_content (c_newObject c) t]> value).
Proof.
  intros Hb Hup Hm Hl Hp Hu.
  unfold redisCache_Set, redisCache_MultiGet, client_Set, client_MGet.
  rewrite Hm, Hb, Hup, (substitute_nonempty buf Hl). simpl.
  rewrite Hb. simpl. rewrite lookup_insert_eq. simpl.
  rewrite (is_placeholder_false buf Hl Hp), Hu. reflexivity.
Qed.

Lemma redisCache_Set_MultiGet_witness :
  redisCache_MultiGet (sampleCache "app")
    (redisCache_Set (sampleCache "app") emptyRedis "u:1" (ptr "A") Hour).2
    ["u:1"] ∅
  = (Nil, <["app:u:1" := ptr "A"]> ∅).
Proof.
  apply (redisCache_Set_MultiGet (sampleCache "app") emptyRedis "u:1" "app:u:1"
           (ptr "A") Hour "A" "A" ∅); try discriminate; reflexivity.
Defined.
